(** * filestorage-service: the HTTP facade over the object store

    A shallow embedding of [api/main.go]: the four request handlers
    ([listFilesHandler], [uploadFilesHandler], [getFileHandler],
    [deleteFileHandler]), the bounded upload pipe inside the upload handler,
    and the pieces of the Go standard library and of the SDKs the handlers
    rely on ([strings.HasSuffix], [strings.Contains], [filepath.Base],
    [io.Pipe], [io.Copy], [uuid.New], [awserr.Error]).

    The object store is an external collaborator.  The handlers are written
    against a record of its operations, threaded through a state of the
    outside world, so that what is proved of a handler alone holds for every
    behaviour of the backend; a reference store, modelled from the
    specification, serves for the properties that need the meaning of put,
    get, list and delete.

    The goroutine that feeds the pipe and the upload that drains it run
    concurrently over a synchronous pipe: a write returns once its bytes
    have been read, and the error of the close is seen after the last
    byte.  What the upload reads is therefore what the producer wrote,
    followed by the closing error, and the producer is run to its end
    before the upload is called.  The log lines and the user-name header,
    which only feeds the log, are left out. *)

From Stdlib Require Import ZArith Lia Strings.Ascii Strings.Byte.
From Stdlib Require Strings.String.
From stdpp Require Import base option list gmap strings pretty.

Local Open Scope Z_scope.

(** ** Go strings *)

Module GoStrings.

Definition len (s : string) : nat := String.length s.

(** [strings.HasPrefix]: [len(s) >= len(prefix) && s[:len(prefix)] == prefix]. *)
Definition HasPrefix (s prefix : string) : bool :=
  (len prefix <=? len s)%nat
  && bool_decide (String.substring 0 (len prefix) s = prefix).

(** [strings.HasSuffix]:
    [len(s) >= len(suffix) && s[len(s)-len(suffix):] == suffix]. *)
Definition HasSuffix (s suffix : string) : bool :=
  (len suffix <=? len s)%nat
  && bool_decide
       (String.substring (len s - len suffix) (len suffix) s = suffix).

(** [strings.Index] scans the offsets from the left; [Contains] is
    [Index(s, substr) >= 0]. *)
Fixpoint Index_from (i : Z) (s substr : string) : Z :=
  if HasPrefix s substr then i
  else match s with
       | EmptyString => -1
       | String _ s' => Index_from (i + 1) s' substr
       end.

Definition Index (s substr : string) : Z := Index_from 0 s substr.

Definition Contains (s substr : string) : bool := 0 <=? Index s substr.

(** [strconv.Itoa] / the [%d] verb. *)
Definition Itoa (z : Z) : string := pretty z.

End GoStrings.

Import GoStrings.

(** A string as the list of its characters. *)
Abbreviation chars := String.list_ascii_of_string.
Abbreviation of_chars := String.string_of_list_ascii.

(** ** path/filepath on a slash-separated platform *)

Module filepath.

Definition Separator : ascii := "/"%char.

Definition IsPathSeparator (c : ascii) : bool := bool_decide (c = Separator).

(** Drops the separators at the end of a reversed path: the loop
    [for len(path) > 0 && os.IsPathSeparator(path[len(path)-1])]. *)
Fixpoint skip_separators (rpath : list ascii) : list ascii :=
  match rpath with
  | c :: rest => if IsPathSeparator c then skip_separators rest else rpath
  | [] => []
  end.

(** Keeps what precedes the first separator of a reversed path: the loop
    [for i >= 0 && !os.IsPathSeparator(path[i]) { i-- }] followed by
    [path = path[i+1:]]. *)
Fixpoint last_element (rpath : list ascii) : list ascii :=
  match rpath with
  | c :: rest => if IsPathSeparator c then [] else c :: last_element rest
  | [] => []
  end.

(** [filepath.Base]: the last element of the path; trailing separators are
    removed first; the empty path gives ".", a path of separators only gives
    the separator.  The volume name is empty on this platform. *)
Definition Base (path : string) : string :=
  if bool_decide (path = "") then "."
  else
    let rpath := skip_separators (reverse (chars path)) in
    let elem := of_chars (reverse (last_element rpath)) in
    if bool_decide (elem = "") then String Separator "" else elem.

End filepath.

(** ** Go errors *)

(** An [error] value is either one of the sentinels of package [io], a plain
    message ([errors.New], [fmt.Errorf]), or an [awserr.Error] with its code,
    message and optional cause. *)
#[warnings="-register-all"] Inductive error : Type :=
| io_EOF
| io_ErrClosedPipe
| io_ErrUnexpectedEOF
| errorString (msg : string)
| awsError (code message : string) (orig : option error).

Definition newline : string := String "010"%char "".
Definition quote : string := String "034"%char "".

(** [err.Error()]; for [awserr.Error] this is [awserr.SprintError]. *)
Fixpoint Error (e : error) : string :=
  match e with
  | io_EOF => "EOF"
  | io_ErrClosedPipe => "io: read/write on closed pipe"
  | io_ErrUnexpectedEOF => "unexpected EOF"
  | errorString msg => msg
  | awsError code message orig =>
      code +:+ ": " +:+ message +:+
      match orig with
      | Some cause => newline +:+ "caused by: " +:+ Error cause
      | None => ""
      end
  end.

Definition is_EOF (e : error) : bool :=
  match e with io_EOF => true | _ => false end.

(** ** Integers of the source *)

Definition wrap64 (z : Z) : Z := (z + 2 ^ 63) mod 2 ^ 64 - 2 ^ 63.

(** [a + b] on [int64]. *)
Definition add64 (a b : Z) : Z := wrap64 (a + b).

Definition maxFileSizeMB : Z := 50.
Definition maxFileSizeByte : Z := maxFileSizeMB * 1024 * 1024.

(** [len(buf)] for [buf := make([]byte, 32*1024)]. *)
Definition bufSize : Z := 32 * 1024.

(** ** Readers *)

(** One call of [Read(buf)]: the bytes placed in [buf[:n]] and the error
    returned with them. *)
Definition ReadResult : Type := list byte * option error.

(** A reader is the sequence of results its successive [Read] calls give;
    a file is finite, so once the sequence is used up [Read] gives
    [0, io.EOF]. *)
Definition Reader : Type := list ReadResult.

Definition Read (r : Reader) : ReadResult * Reader :=
  match r with
  | [] => (([], Some io_EOF), [])
  | res :: r' => (res, r')
  end.

(** ** io.Pipe *)

(** The pipe shared by [pr] and [pw]: the bytes handed over so far, the error
    stored by the write side when it closes and the one stored by the read
    side.  Each is stored once; a later close keeps the first error. *)
Record Pipe : Type := mkPipe {
  p_data : list byte;
  p_werr : option error;
  p_rerr : option error
}.

Definition io_Pipe : Pipe := mkPipe [] None None.

(** [pw.Write(b)], for a reader that takes the bytes: in the program a
    write waits until its bytes have been read, and a write that nobody
    reads never returns; that wait is not part of the model. *)
Definition pw_Write (p : Pipe) (b : list byte) : Pipe * option error :=
  match p_werr p, p_rerr p with
  | None, None => (mkPipe (p_data p ++ b) None None, None)
  | None, Some rerr => (p, Some rerr)
  | Some _, _ => (p, Some io_ErrClosedPipe)
  end.

(** [pw.CloseWithError(err)]; a nil [err] stands for [io.EOF]. *)
Definition pw_CloseWithError (p : Pipe) (err : option error) : Pipe :=
  match p_werr p with
  | Some _ => p
  | None => mkPipe (p_data p) (Some (default io_EOF err)) (p_rerr p)
  end.

(** [pw.Close()]. *)
Definition pw_Close (p : Pipe) : Pipe := pw_CloseWithError p None.

(** ** The producer of the bounded upload pipe *)

Definition size_exceeded_suffix : string :=
  "exceeds the maximum allowed size of " +:+ Itoa maxFileSizeMB +:+ "MB".

(** [fmt.Errorf("file '%s' exceeds the maximum allowed size of %dMB", ...)]. *)
Definition size_exceeded_error (filename : string) : error :=
  errorString ("file '" +:+ filename +:+ "' " +:+ size_exceeded_suffix).

(** Outcome of one pass through the body of the [for] loop. *)
Inductive loop_ctl : Type :=
| Continue (currentSize : Z) (pw : Pipe)
| Leave (pw : Pipe).

(** The tail of the loop body: [if readErr == io.EOF { break }] and
    [if readErr != nil { pw.CloseWithError(readErr); return }]. *)
Definition after_chunk (readErr : option error) (currentSize : Z) (pw : Pipe)
  : loop_ctl :=
  match readErr with
  | Some e =>
      if is_EOF e then Leave pw else Leave (pw_CloseWithError pw (Some e))
  | None => Continue currentSize pw
  end.

(** The loop body after [n, readErr := file.Read(buf)]. *)
Definition iteration (filename : string) (res : ReadResult)
    (currentSize : Z) (pw : Pipe) : loop_ctl :=
  let '(chunk, readErr) := res in
  let n := Z.of_nat (length chunk) in
  if 0 <? n then
    let currentSize := add64 currentSize n in
    if maxFileSizeByte <? currentSize then
      Leave (pw_CloseWithError pw (Some (size_exceeded_error filename)))
    else
      match pw_Write pw chunk with
      | (pw, Some writeErr) => Leave (pw_CloseWithError pw (Some writeErr))
      | (pw, None) => after_chunk readErr currentSize pw
      end
  else after_chunk readErr currentSize pw.

(** The [for] loop of the goroutine; returns the pipe and what is left
    unread of the file. *)
Fixpoint copy_loop (filename : string) (file : Reader)
    (currentSize : Z) (pw : Pipe) : Pipe * Reader :=
  match file with
  | [] => (pw, [])
  | res :: file' =>
      match iteration filename res currentSize pw with
      | Continue currentSize pw => copy_loop filename file' currentSize pw
      | Leave pw => (pw, file')
      end
  end.

(** The goroutine: the loop with [currentSize] starting at zero, then the
    deferred [pw.Close()]. *)
Definition producer (filename : string) (file : Reader) (pw : Pipe)
  : Pipe * Reader :=
  let '(pw, rest) := copy_loop filename file 0 pw in
  (pw_Close pw, rest).

(** The bytes an error-free reader delivers up to its end of file; [None]
    when a read fails first. *)
Fixpoint file_content (file : Reader) : option (list byte) :=
  match file with
  | [] => Some []
  | (chunk, None) :: file' => (chunk ++.) <$> file_content file'
  | (chunk, Some e) :: _ => if is_EOF e then Some chunk else None
  end.

(** Every [Read] fills at most the buffer it was given. *)
Definition fits_buffer (file : Reader) : Prop :=
  Forall (λ res : ReadResult, Z.of_nat (length res.1) <= bufSize) file.

(** ** github.com/google/uuid *)

Module uuid.

(** [type UUID [16]byte]. *)
Abbreviation UUID := (list byte).

Definition byte_of_N (n : N) : byte := default x00 (Byte.of_N (n mod 256)%N).

(** [(b & mask) | bits]. *)
Definition and_or (mask bits : N) (b : byte) : byte :=
  byte_of_N (N.lor (N.land (Byte.to_N b) mask) bits).

(** The array [var uuid UUID] after [io.ReadFull(r, uuid[:])] placed [bs]
    in it: sixteen bytes, zero where nothing was read. *)
Definition fill (bs : list byte) : UUID := take 16 (bs ++ replicate 16 x00).

(** [NewRandomFromReader] after a successful read:
    [uuid[6] = (uuid[6] & 0x0f) | 0x40] and
    [uuid[8] = (uuid[8] & 0x3f) | 0x80]. *)
Definition version4 (bs : list byte) : UUID :=
  alter (and_or 0x3f 0x80) 8%nat (alter (and_or 0x0f 0x40) 6%nat (fill bs)).

Definition hexdigit (n : N) : ascii :=
  default "0"%char (chars "0123456789abcdef" !! N.to_nat n).

(** [hex.Encode]: two lower-case digits per byte. *)
Fixpoint hex_Encode (src : list byte) : string :=
  match src with
  | [] => ""
  | b :: src' =>
      String (hexdigit (Byte.to_N b / 16)) (String (hexdigit (Byte.to_N b mod 16))
        (hex_Encode src'))
  end.

(** [UUID.String]: xxxxxxxx-xxxx-xxxx-xxxx-xxxxxxxxxxxx. *)
Definition String_ (u : UUID) : string :=
  hex_Encode (take 4 u) +:+ "-" +:+
  hex_Encode (take 2 (drop 4 u)) +:+ "-" +:+
  hex_Encode (take 2 (drop 6 u)) +:+ "-" +:+
  hex_Encode (take 2 (drop 8 u)) +:+ "-" +:+
  hex_Encode (drop 10 u).

End uuid.

(** ** The request and the collaborators *)

Module multipart.

(** [multipart.FileHeader]: the name sent by the client and what [Open]
    gives: an error, or the file as a reader. *)
Record FileHeader : Type := mkFileHeader {
  Filename : string;
  Open : Reader + error
}.

End multipart.

(** One part of a multipart body, as [mime/multipart] reads it: the [name]
    and [filename] parameters of its Content-Disposition (empty when
    absent), and what [Open] will give for the copy the parser keeps of its
    content. *)
Record Part : Type := mkPart {
  disposition_name : string;
  disposition_filename : string;
  kept : Reader + error
}.

(** [Part.FileName]: the [filename] parameter passed through
    [filepath.Base], or the empty string when there is none. *)
Definition Part_FileName (p : Part) : string :=
  if bool_decide (disposition_filename p = "") then ""
  else filepath.Base (disposition_filename p).

(** [form.File[field]] after [readForm]: a part without [name] is dropped,
    a part whose file name is empty is kept as a form value and not as a
    file, and every other part becomes a [FileHeader] under its name, in
    the order of the body. *)
Definition form_File (field : string) (parts : list Part)
  : list multipart.FileHeader :=
  omap (λ p,
          if bool_decide (disposition_name p = "") then None
          else if bool_decide (Part_FileName p = "") then None
          else if bool_decide (disposition_name p = field)
               then Some (multipart.mkFileHeader (Part_FileName p) (kept p))
               else None)
       parts.

(** [c.MultipartForm()] followed by [form.File["files"]]: an error for a
    body that cannot be parsed, else the file parts of the field. *)
Definition MultipartForm (body : list Part + error)
  : list multipart.FileHeader + error :=
  match body with
  | inr err => inr err
  | inl parts => inl (form_File "files" parts)
  end.

Module s3.

Definition ErrCodeNoSuchKey : string := "NoSuchKey".

(** [time.Time], as nanoseconds. *)
Definition Time : Type := Z.

(** [s3.Object]; each field is a pointer in the SDK. *)
Record Object : Type := mkObject {
  Key : option string;
  LastModified : option Time
}.

Record ListObjectsV2Output : Type := mkListObjectsV2Output {
  Contents : list Object
}.

Record GetObjectOutput : Type := mkGetObjectOutput {
  Body : Reader;
  ContentType : option string;
  ContentLength : option Z
}.

End s3.

(** What the handlers call outside this program, over a state [St] of the
    outside world: the object store through [s3Client] and [s3Uploader]
    (the bucket is the configured one), and the random source of
    [uuid.New].  [Upload] receives the pipe as the producer leaves it. *)
Record Collaborators (St : Type) : Type := mkCollaborators {
  ListObjectsV2 : St -> (s3.ListObjectsV2Output + error) * St;
  GetObject : string -> St -> (s3.GetObjectOutput + error) * St;
  DeleteObject : string -> St -> option error * St;
  Upload : string -> Pipe -> St -> option error * St;
  rand_ReadFull : St -> (list byte * option error) * St
}.

Arguments ListObjectsV2 {St} _ _.
Arguments GetObject {St} _ _ _.
Arguments DeleteObject {St} _ _ _.
Arguments Upload {St} _ _ _ _.
Arguments rand_ReadFull {St} _ _.

(** [aws.StringValue] and [aws.Int64Value]. *)
Definition aws_StringValue (v : option string) : string := default "" v.
Definition aws_Int64Value (v : option Z) : Z := default 0 v.

(** ** Responses *)

Record FileInfo : Type := mkFileInfo {
  Filename : string;
  Path : string;
  UploadedAt : s3.Time
}.

Definition StatusOK : Z := 200.
Definition StatusCreated : Z := 201.
Definition StatusNoContent : Z := 204.
Definition StatusBadRequest : Z := 400.
Definition StatusNotFound : Z := 404.
Definition StatusRequestEntityTooLarge : Z := 413.
Definition StatusInternalServerError : Z := 500.

(** What a handler leaves for the server to send. *)
Inductive Response : Type :=
| JSON_files (code : Z) (files : list FileInfo)
| JSON_uploaded (code : Z) (message : string) (uploaded_files : list string)
| HTTPError (code : Z) (message : string)
| Streamed (header : list (string * string)) (body : list byte)
| NoContent (code : Z)
| Panicked.

(** The status line of the response; a write without [WriteHeader] sends
    200, and the [Recover] middleware answers a panic with 500. *)
Definition status (r : Response) : Z :=
  match r with
  | JSON_files code _ | JSON_uploaded code _ _ | HTTPError code _
  | NoContent code => code
  | Streamed _ _ => StatusOK
  | Panicked => StatusInternalServerError
  end.

(** ** Threading the outside world *)

Definition M (St A : Type) : Type := St -> A * St.

#[global] Instance M_ret {St} : MRet (M St) := λ A (a : A) s, (a, s).
#[global] Instance M_bind {St} : MBind (M St) :=
  λ A B (k : A -> M St B) (c : M St A) s, let '(a, s') := c s in k a s'.

Definition get {St} : M St St := λ s, (s, s).
Definition put {St} (s : St) : M St unit := λ _, (tt, s).

(** [io.Copy(dst, src)]: everything read until the end of file or the first
    error is written to [dst]. *)
Fixpoint io_Copy (src : Reader) : list byte * option error :=
  match src with
  | [] => ([], None)
  | (chunk, None) :: src' =>
      let '(written, err) := io_Copy src' in (chunk ++ written, err)
  | (chunk, Some e) :: _ => (chunk, if is_EOF e then None else Some e)
  end.

(** ** The handlers *)

Section Handlers.

Context {St : Type} (svc : Collaborators St).

(** [uuid.New()]: [Must(NewRandom())]; [None] is the panic of [Must]. *)
Definition uuid_New : M St (option uuid.UUID) :=
  '(bs, err) ← rand_ReadFull svc;
  match err with
  | Some _ => mret None
  | None => mret (Some (uuid.version4 bs))
  end.

(** The [for _, obj := range result.Contents] loop; [None] is the panic of
    dereferencing a nil [obj.LastModified]. *)
Fixpoint collect_files (contents : list s3.Object) (files : list FileInfo)
  : option (list FileInfo) :=
  match contents with
  | [] => Some files
  | obj :: contents' =>
      match s3.Key obj with
      | Some key =>
          if negb (HasSuffix key "/") then
            match s3.LastModified obj with
            | Some t =>
                collect_files contents'
                  (files ++ [mkFileInfo key ("/files/" +:+ key) t])
            | None => None
            end
          else collect_files contents' files
      | None => collect_files contents' files
      end
  end.

Definition listFilesHandler : M St Response :=
  r ← ListObjectsV2 svc;
  match r with
  | inr err =>
      mret (HTTPError StatusInternalServerError
              "Failed to list files from storage.")
  | inl result =>
      match collect_files (s3.Contents result) [] with
      | Some files => mret (JSON_files StatusOK files)
      | None => mret Panicked
      end
  end.

(** [fmt.Sprintf("%s_%s", uuid.New().String(), filepath.Base(name))]. *)
Definition uniqueFilename (u : uuid.UUID) (name : string) : string :=
  uuid.String_ u +:+ "_" +:+ filepath.Base name.

(** The [for _, fileHeader := range files] loop.  [pr] is the pipe as the
    goroutine leaves it; [s3Uploader.Upload] reads it to its end. *)
Fixpoint upload_loop (files : list multipart.FileHeader)
    (uploadedFilenames : list string) : M St Response :=
  match files with
  | [] =>
      mret (JSON_uploaded StatusCreated "Files uploaded successfully"
              uploadedFilenames)
  | fileHeader :: files' =>
      let name := multipart.Filename fileHeader in
      if bool_decide (name = "") then upload_loop files' uploadedFilenames
      else
        match multipart.Open fileHeader with
        | inr err =>
            mret (HTTPError StatusInternalServerError
                    ("Could not open file '" +:+ name +:+ "'"))
        | inl file =>
            u ← uuid_New;
            match u with
            | None => mret Panicked
            | Some u =>
                let key := uniqueFilename u name in
                let '(pr, _) := producer name file io_Pipe in
                err ← Upload svc key pr;
                match err with
                | Some err =>
                    if Contains (Error err) size_exceeded_suffix then
                      mret (HTTPError StatusRequestEntityTooLarge (Error err))
                    else
                      mret (HTTPError StatusInternalServerError
                              ("Could not upload file '" +:+ name +:+ "'"))
                | None => upload_loop files' (uploadedFilenames ++ [key])
                end
            end
        end
  end.

(** [form] is what [c.MultipartForm()] gives: an error, or the file parts of
    the field [files]. *)
Definition uploadFilesHandler (form : list multipart.FileHeader + error)
  : M St Response :=
  match form with
  | inr err =>
      mret (HTTPError StatusBadRequest
              ("Failed to parse multipart form: " +:+ Error err))
  | inl files =>
      if bool_decide (length files = 0%nat) then
        mret (HTTPError StatusBadRequest "No files provided for upload.")
      else upload_loop files []
  end.

Definition getFileHandler (filename : string) : M St Response :=
  r ← GetObject svc filename;
  match r with
  | inr err =>
      match err with
      | awsError code _ _ =>
          if bool_decide (code = s3.ErrCodeNoSuchKey) then
            mret (HTTPError StatusNotFound
                    ("File '" +:+ filename +:+ "' not found."))
          else
            mret (HTTPError StatusInternalServerError
                    "Failed to retrieve file.")
      | _ =>
          mret (HTTPError StatusInternalServerError "Failed to retrieve file.")
      end
  | inl result =>
      let header :=
        [("Content-Type", aws_StringValue (s3.ContentType result));
         ("Content-Length", Itoa (aws_Int64Value (s3.ContentLength result)));
         ("Content-Disposition",
          "attachment; filename=" +:+ quote +:+ filename +:+ quote)] in
      let '(body, _) := io_Copy (s3.Body result) in
      mret (Streamed header body)
  end.

Definition deleteFileHandler (filename : string) : M St Response :=
  err ← DeleteObject svc filename;
  match err with
  | Some err =>
      mret (HTTPError StatusInternalServerError
              ("Could not delete file '" +:+ filename +:+ "'."))
  | None => mret (NoContent StatusNoContent)
  end.

End Handlers.

(** ** A reference object store *)

Module Store.

(** Modelled from the spec: the backend object store of section 4.1, which
    is not part of this repository.  A bucket maps keys to stored objects;
    every call can fail with a transport error ([BackendUnavailable]), read
    here from a schedule of outages. *)
Record StoredObject : Type := mkStoredObject {
  content : list byte;
  content_type : option string;
  last_modified : s3.Time
}.

Record World : Type := mkWorld {
  bucket : gmap string StoredObject;
  outages : list (option error);
  entropy : list byte;
  clock : s3.Time
}.

(** The fate of the next call to the backend. *)
Definition next_outage : M World (option error) :=
  w ← get;
  match outages w with
  | [] => mret None
  | o :: rest =>
      put (mkWorld (bucket w) rest (entropy w) (clock w));; mret o
  end.

(** Modelled from the spec: [listObjects(bucket) -> sequence of
    (key, lastModified)], failing with [BackendUnavailable]. *)
Definition listObjects : M World (s3.ListObjectsV2Output + error) :=
  o ← next_outage;
  match o with
  | Some e => mret (inr e)
  | None =>
      w ← get;
      mret (inl (s3.mkListObjectsV2Output
                   ((λ kv : string * StoredObject,
                       s3.mkObject (Some kv.1) (Some (last_modified kv.2)))
                      <$> map_to_list (bucket w))))
  end.

(** Modelled from the spec: [getObject(bucket, key) -> (contentType,
    contentLength, byteStream)], failing with [NotFound] if the key does not
    exist, else [BackendUnavailable]. *)
Definition getObject (key : string) : M World (s3.GetObjectOutput + error) :=
  o ← next_outage;
  match o with
  | Some e => mret (inr e)
  | None =>
      w ← get;
      match bucket w !! key with
      | Some obj =>
          mret (inl (s3.mkGetObjectOutput [(content obj, None)]
                       (content_type obj)
                       (Some (Z.of_nat (length (content obj))))))
      | None =>
          mret (inr (awsError s3.ErrCodeNoSuchKey
                       "The specified key does not exist." None))
      end
  end.

(** Modelled from the spec: [deleteObject(bucket, key) -> success], failing
    with [BackendUnavailable]; deleting a key that does not exist is not an
    error. *)
Definition deleteObject (key : string) : M World (option error) :=
  o ← next_outage;
  match o with
  | Some e => mret (Some e)
  | None =>
      w ← get;
      put (mkWorld (delete key (bucket w)) (outages w) (entropy w) (clock w));;
      mret None
  end.

(** Modelled from the spec: [putObject(bucket, key, byteStream) -> success],
    failing with [BackendUnavailable], or with the stream's own error as
    cause when the input stream was aborted; an aborted or unfinished stream
    never leaves a completed object. *)
Definition putObject (key : string) (body : Pipe) : M World (option error) :=
  o ← next_outage;
  match o with
  | Some e => mret (Some e)
  | None =>
      match p_werr body with
      | Some e =>
          if is_EOF e then
            w ← get;
            put (mkWorld
                   (<[key := mkStoredObject (p_data body)
                               (Some "binary/octet-stream") (clock w)]>
                      (bucket w))
                   (outages w) (entropy w) (clock w + 1));;
            mret None
          else
            mret (Some (awsError "ReadRequestBody" "read upload data failed"
                          (Some e)))
      | None =>
          mret (Some (awsError "ReadRequestBody" "read upload data failed"
                        (Some io_ErrUnexpectedEOF)))
      end
  end.

(** The random source: [io.ReadFull] of sixteen bytes. *)
Definition readRandom : M World (list byte * option error) :=
  w ← get;
  if bool_decide (16 <= length (entropy w))%nat then
    put (mkWorld (bucket w) (outages w) (drop 16 (entropy w)) (clock w));;
    mret (take 16 (entropy w), None)
  else
    put (mkWorld (bucket w) (outages w) [] (clock w));;
    mret (entropy w,
          Some (if bool_decide (entropy w = [])
                then io_EOF else io_ErrUnexpectedEOF)).

Definition services : Collaborators World :=
  mkCollaborators World listObjects getObject deleteObject putObject
    readRandom.

End Store.

(** The next call reaches the backend. *)
Definition available (w : Store.World) : Prop := (Store.next_outage w).1 = None.

(** The world once the next call has met its fate. *)
Definition after_call (w : Store.World) : Store.World := (Store.next_outage w).2.

(** The world once [uuid.New] has drawn its sixteen bytes. *)
Definition after_draw (w : Store.World) : Store.World :=
  Store.mkWorld (Store.bucket w) (Store.outages w) (drop 16 (Store.entropy w))
    (Store.clock w).

(** The identifier [uuid.New] draws next. *)
Definition next_uuid (w : Store.World) : uuid.UUID :=
  uuid.version4 (take 16 (Store.entropy w)).

(** The world once a completed stream has been stored under [key]. *)
Definition stored (key : string) (data : list byte) (w : Store.World)
  : Store.World :=
  Store.mkWorld
    (<[key := Store.mkStoredObject data (Some "binary/octet-stream")
                (Store.clock w)]> (Store.bucket w))
    (Store.outages w) (Store.entropy w) (Store.clock w + 1).

(** The bytes delivered by the reads in [seen]. *)
Definition bytes_of (seen : Reader) : list byte := concat (seen.*1).

(** ** The listing in the words of the specification *)

(** The entry of one backend object: none for an object without key or
    whose key ends in the path separator, else the key as file name, the
    path [/files/<key>] and the upload time. *)
Definition listed_entry (obj : s3.Object) : option FileInfo :=
  key ← s3.Key obj;
  if HasSuffix key "/" then None
  else t ← s3.LastModified obj; Some (mkFileInfo key ("/files/" +:+ key) t).

(** One entry per listed object, in the order of the backend. *)
Definition listing (contents : list s3.Object) : list FileInfo :=
  omap listed_entry contents.

(** ** Sample inputs *)

Definition sample_entropy : list byte :=
  [x10; x32; x54; x76; x98; xba; xdc; xfe; x01; x23; x45; x67; x89; xab; xcd;
   xef; x00; x11; x22; x33; x44; x55; x66; x77; x88; x99; xaa; xbb; xcc; xdd;
   xee; xff]%byte.

(** An empty bucket, a reachable backend, randomness for two identifiers. *)
Definition sample_world : Store.World :=
  Store.mkWorld ∅ [] sample_entropy 0.

Definition sample_content : list byte := ["h"; "e"; "l"; "l"; "o"]%byte.

(** The content delivered in two reads, the second with [io.EOF]. *)
Definition sample_file : Reader :=
  [(["h"; "e"]%byte, None); (["l"; "l"; "o"]%byte, Some io_EOF)].

Definition sample_part : multipart.FileHeader :=
  multipart.mkFileHeader "a.txt" (inl sample_file).

(** A read that fills the whole buffer. *)
Definition full_chunk : list byte := replicate (Z.to_nat bufSize) x00.

(** A file of one byte more than the ceiling: 1600 full buffers, then a
    last byte with [io.EOF]. *)
Definition oversized_file : Reader :=
  replicate 1600 (full_chunk, None) ++ [([x00], Some io_EOF)].

Definition oversized_content : list byte :=
  concat (replicate 1600 full_chunk) ++ [x00].

Definition oversized_part : multipart.FileHeader :=
  multipart.mkFileHeader "big.bin" (inl oversized_file).

(** A file of exactly the ceiling: 1600 full buffers, the last one handed
    over together with [io.EOF]. *)
Definition ceiling_file : Reader :=
  replicate 1599 (full_chunk, None) ++ [(full_chunk, Some io_EOF)].

Definition ceiling_content : list byte :=
  concat (replicate 1599 full_chunk) ++ full_chunk.

Definition ceiling_part : multipart.FileHeader :=
  multipart.mkFileHeader "a.txt" (inl ceiling_file).

(** A backend whose next call fails with a transport error that quotes a
    limit of its own. *)
Definition gateway_error : error :=
  awsError "RequestError"
    "send request failed: body exceeds the maximum allowed size of 50MB of the proxy"
    None.

Definition outage_world : Store.World :=
  Store.mkWorld ∅ [Some gateway_error] sample_entropy 0.

(** A client stream that breaks after two bytes with an error of the same
    wording. *)
Definition broken_file : Reader :=
  [(["h"; "e"]%byte, None);
   ([], Some (errorString
                "read: frame exceeds the maximum allowed size of 50MB"))].

Definition broken_part : multipart.FileHeader :=
  multipart.mkFileHeader "a.txt" (inl broken_file).

(** A bucket with two files and a directory marker. *)
Definition listing_world : Store.World :=
  Store.mkWorld
    (<["a.txt" := Store.mkStoredObject sample_content (Some "text/plain") 3]>
       (<["photos/" := Store.mkStoredObject [] None 4]>
          (<["b.txt" := Store.mkStoredObject [] None 5]> ∅)))
    [] [] 6.

(** A part of the field [files] sent without a file name, and one sent
    with a name that has a directory in it. *)
Definition nameless_field : Part := mkPart "files" "" (inl sample_file).
Definition named_field : Part := mkPart "files" "docs/a.txt" (inl sample_file).

(** A part whose file name is the lone separator. *)
Definition separator_part : multipart.FileHeader :=
  multipart.mkFileHeader "/" (inl sample_file).

(** Reads that deliver bytes without an error. *)
Definition clean (seen : Reader) : Prop :=
  Forall (λ res : ReadResult, res.2 = None) seen.

(** A stream that delivers five bytes and then breaks, two more bytes coming
    with the error; a last read is never made. *)
Definition torn_file : Reader :=
  [(["h"; "e"]%byte, None); (["l"; "l"; "o"]%byte, None);
   (["!"; "!"]%byte, Some (errorString "connection reset by peer"));
   (["?"]%byte, None)].

(** A backend without state whose every get answers with [result] and whose
    every listing answers with [contents]; the other calls fail. *)
Definition canned (result : s3.GetObjectOutput) (contents : list s3.Object)
  : Collaborators unit :=
  mkCollaborators unit
    (λ s, (inl (s3.mkListObjectsV2Output contents), s))
    (λ _ s, (inl result, s))
    (λ _ s, (Some (errorString "not served"), s))
    (λ _ _ s, (Some (errorString "not served"), s))
    (λ s, ([], Some io_EOF, s)).

(** A part whose file cannot be opened. *)
Definition unopenable_part : multipart.FileHeader :=
  multipart.mkFileHeader "b.txt" (inr (errorString "no such file")).

(** The names of the parts that have one, in the order of the request. *)
Definition named_parts (files : list multipart.FileHeader) : list string :=
  filter (λ name, name <> "") (multipart.Filename <$> files).

(** What follows the identifier and the underscore in a key. *)
Definition key_name (key : string) : string :=
  String.substring 37 (len key - 37) key.

(** A part sent with a directory in its name. *)
Definition nested_part : multipart.FileHeader :=
  multipart.mkFileHeader "docs/2024/b.txt" (inl sample_file).

(** ** Start-up *)

(** What [os.Getenv] gives for the variables read at start-up; a variable
    that is not set reads as the empty string. *)
Record Env : Type := mkEnv {
  S3_REGION : string;
  S3_BUCKET : string;
  PORT : string;
  AWS_ENDPOINT : string;
  AWS_S3_FORCE_PATH_STYLE : string
}.

(** [aws.Config], as far as [initS3Client] fills it. *)
Record Config : Type := mkConfig {
  Region : option string;
  Endpoint : option string;
  S3ForcePathStyle : option bool
}.

(** [c < utf8.RuneSelf] for every byte of [s]. *)
Definition isASCII (s : string) : bool :=
  forallb (λ c, (nat_of_ascii c <? 128)%nat) (chars s).

(** ['A' <= c && c <= 'Z']. *)
Definition isUpper (c : ascii) : bool :=
  (65 <=? nat_of_ascii c)%nat && (nat_of_ascii c <=? 90)%nat.

Definition hasUpper (s : string) : bool := existsb isUpper (chars s).

(** [c += 'a' - 'A'] for the upper-case letters. *)
Definition lower_byte (c : ascii) : ascii :=
  if isUpper c then ascii_of_nat (nat_of_ascii c + 32) else c.

Inductive Startup (Session : Type) : Type :=
| Fatal (msg : string)
| Ready (sess : Session).

Arguments Fatal {Session} _.
Arguments Ready {Session} _.

Section Startup.

(** [strings.Map(unicode.ToLower, s)], which [strings.ToLower] falls back
    on for a string with a byte outside ASCII; the Unicode tables are left
    out, and so is what [session.NewSession] does with a configuration. *)
Context (unicode_lower : string -> string).
Context {Session : Type} (NewSession : Config -> Session + error).

(** [strings.ToLower]. *)
Definition ToLower (s : string) : string :=
  if isASCII s then
    if negb (hasUpper s) then s else of_chars (lower_byte <$> chars s)
  else unicode_lower s.

(** The configuration [initS3Client] builds before it opens the session. *)
Definition session_config (env : Env) : Config :=
  let cfg := mkConfig (Some (S3_REGION env)) None None in
  let cfg :=
    if bool_decide (AWS_ENDPOINT env <> "")
    then mkConfig (Region cfg) (Some (AWS_ENDPOINT env)) (S3ForcePathStyle cfg)
    else cfg in
  if bool_decide (ToLower (AWS_S3_FORCE_PATH_STYLE env) = "true")
  then mkConfig (Region cfg) (Endpoint cfg) (Some true)
  else cfg.

(** [initS3Client]; [Fatal] is [log.Fatal], which ends the process. *)
Definition initS3Client (env : Env) : Startup Session :=
  if bool_decide (S3_REGION env = "") || bool_decide (S3_BUCKET env = "") then
    Fatal "S3_REGION and S3_BUCKET environment variables must be set."
  else
    match NewSession (session_config env) with
    | inr err => Fatal ("Failed to create AWS session: " +:+ Error err)
    | inl sess => Ready sess
    end.

End Startup.

(** A deployment against a local store. *)
Definition local_env : Env :=
  mkEnv "us-east-1" "files" "" "http://minio:9000" "True".

(** The sixteen spellings of "true". *)
Definition spells_true (s : string) : Prop :=
  exists c1 c2 c3 c4,
    s = String c1 (String c2 (String c3 (String c4 "")))
    /\ (c1 = "t" \/ c1 = "T")%char /\ (c2 = "r" \/ c2 = "R")%char
    /\ (c3 = "u" \/ c3 = "U")%char /\ (c4 = "e" \/ c4 = "E")%char.

(** An error wrapped as the cause of [awserr.Error]s, outermost first. *)
Definition wrapped (layers : list (string * string)) (cause : error) : error :=
  foldr (λ layer e, awsError layer.1 layer.2 (Some e)) cause layers.

Definition tab : string := String "009"%char "".

(** The layers of the error of a failed multipart upload: the upload error,
    whose text carries the upload id on a line of its own, around the error
    of reading the body. *)
Definition multipart_layers : list (string * string) :=
  [("MultipartUpload",
    "upload multipart failed" +:+ newline +:+ tab +:+ "upload id: 2~VmxqYXZh");
   ("ReadRequestBody", "read multipart upload data failed")].

(** The error of a multipart upload whose body was aborted for size. *)
Definition multipart_abort : error :=
  wrapped multipart_layers (size_exceeded_error "big.bin").

(** * Properties *)

(** ** Sanity checks of the library functions *)

Example Base_plain : filepath.Base "a.txt" = "a.txt".
Proof. reflexivity. Qed.
Example Base_dir : filepath.Base "dir/sub/a.txt" = "a.txt".
Proof. reflexivity. Qed.
Example Base_trailing : filepath.Base "dir/sub//" = "sub".
Proof. reflexivity. Qed.
Example Base_empty : filepath.Base "" = ".".
Proof. reflexivity. Qed.
Example Base_root : filepath.Base "///" = "/".
Proof. reflexivity. Qed.
Example HasSuffix_marker : HasSuffix "photos/" "/" = true.
Proof. reflexivity. Qed.
Example HasSuffix_file : HasSuffix "photos/a.png" "/" = false.
Proof. reflexivity. Qed.
Example Contains_mid : Contains "abc exceeds def" "exceeds" = true.
Proof. reflexivity. Qed.
Example Contains_not : Contains "abc" "abd" = false.
Proof. reflexivity. Qed.
Example Itoa_50 : Itoa 50 = "50".
Proof. reflexivity. Qed.
Example Itoa_0 : Itoa 0 = "0".
Proof. reflexivity. Qed.
Example producer_small :
  producer "a.txt" [(["a"; "b"]%byte, None); (["c"]%byte, Some io_EOF)] io_Pipe
  = (mkPipe ["a"; "b"; "c"]%byte (Some io_EOF) None, []).
Proof. reflexivity. Qed.
Example producer_read_error :
  producer "a.txt" [(["a"]%byte, None); ([], Some (errorString "disk"));
                    (["z"]%byte, None)] io_Pipe
  = (mkPipe ["a"]%byte (Some (errorString "disk")) None, [(["z"]%byte, None)]).
Proof. reflexivity. Qed.

(** ** Strings as character lists *)

Lemma chars_app (a b : string) : chars (a +:+ b) = chars a ++ chars b.
Proof. induction a as [|c a IH]; simpl; [done | by rewrite IH]. Qed.

Lemma chars_inj (a b : string) : chars a = chars b -> a = b.
Proof.
  intros H. rewrite <- (String.string_of_list_ascii_of_string a),
    <- (String.string_of_list_ascii_of_string b). by rewrite H.
Qed.

Lemma len_chars (s : string) : len s = length (chars s).
Proof. unfold len. induction s; simpl; congruence. Qed.

Lemma len_app (a b : string) : len (a +:+ b) = (len a + len b)%nat.
Proof. by rewrite !len_chars, chars_app, length_app. Qed.

Lemma chars_substring (n m : nat) (s : string) :
  chars (String.substring n m s) = take m (drop n (chars s)).
Proof.
  revert n m.
  induction s as [|c s IH]; intros [|n] [|m]; simpl; rewrite ?IH; done.
Qed.

Lemma app_assoc_s (a b c : string) : (a +:+ b) +:+ c = a +:+ (b +:+ c).
Proof. apply chars_inj. by rewrite !chars_app, <- app_assoc. Qed.

Lemma app_empty_r (a : string) : a +:+ "" = a.
Proof. apply chars_inj. by rewrite chars_app, app_nil_r. Qed.

Lemma HasPrefix_spec (s p : string) :
  HasPrefix s p = true <-> exists t, s = p +:+ t.
Proof.
  unfold HasPrefix. rewrite andb_true_iff, Nat.leb_le, bool_decide_eq_true.
  split.
  - intros [_ Heq]. exists (of_chars (drop (len p) (chars s))).
    apply chars_inj.
    rewrite chars_app, String.list_ascii_of_string_of_list_ascii.
    rewrite <- Heq at 1. by rewrite chars_substring, drop_0, take_drop.
  - intros [t ->]. split.
    + rewrite len_app. lia.
    + apply chars_inj.
      by rewrite chars_substring, chars_app, drop_0, len_chars, take_app_length.
Qed.

Lemma HasSuffix_spec (s p : string) :
  HasSuffix s p = true <-> exists t, s = t +:+ p.
Proof.
  unfold HasSuffix. rewrite andb_true_iff, Nat.leb_le, bool_decide_eq_true.
  split.
  - intros [Hle Heq]. exists (of_chars (take (len s - len p) (chars s))).
    apply chars_inj.
    rewrite chars_app, String.list_ascii_of_string_of_list_ascii.
    apply (f_equal chars) in Heq. rewrite chars_substring in Heq.
    rewrite (take_ge (drop _ _)) in Heq
      by (rewrite length_drop, <- !len_chars; lia).
    by rewrite <- Heq, take_drop.
  - intros [t ->]. split.
    + rewrite len_app. lia.
    + apply chars_inj. rewrite chars_substring, chars_app, len_app.
      replace (len t + len p - len p)%nat with (length (chars t))
        by (rewrite len_chars; lia).
      rewrite drop_app_length, take_ge; [done |].
      rewrite len_chars. lia.
Qed.

Lemma Index_from_spec (i : Z) (s p : string) :
  (Index_from i s p = -1 /\ ~ exists a b, s = a +:+ p +:+ b)
  \/ (i <= Index_from i s p /\ exists a b, s = a +:+ p +:+ b).
Proof.
  revert i. induction s as [|c s IH]; intros i; simpl.
  - destruct (HasPrefix "" p) eqn:Hp.
    + right. split; [lia |]. apply HasPrefix_spec in Hp as [t Ht].
      by exists "", t.
    + left. split; [done |]. intros (a & b & Hab).
      destruct a; [| done]. simpl in Hab.
      assert (HasPrefix "" p = true) by (apply HasPrefix_spec; eauto).
      congruence.
  - destruct (HasPrefix (String c s) p) eqn:Hp.
    + right. split; [lia |]. apply HasPrefix_spec in Hp as [t Ht].
      by exists "", t.
    + destruct (IH (i + 1)) as [[-> Hno] | [Hle (a & b & ->)]].
      * left. split; [done |]. intros (a & b & Hab). destruct a as [|c' a].
        -- assert (HasPrefix (String c s) p = true)
             by (apply HasPrefix_spec; eauto).
           congruence.
        -- simpl in Hab. injection Hab as _ ->. apply Hno. eauto.
      * right. split; [lia |]. by exists (String c a), b.
Qed.

Lemma Contains_spec (s p : string) :
  Contains s p = true <-> exists a b, s = a +:+ p +:+ b.
Proof.
  unfold Contains, Index. rewrite Z.leb_le.
  destruct (Index_from_spec 0 s p) as [[-> Hno] | [Hle Hex]]; split;
    try done; lia.
Qed.

(** ** filepath.Base *)

Lemma chars_of_chars (l : list ascii) : chars (of_chars l) = l.
Proof. apply String.list_ascii_of_string_of_list_ascii. Qed.

Lemma of_chars_chars (s : string) : of_chars (chars s) = s.
Proof. apply String.string_of_list_ascii_of_string. Qed.

Lemma last_element_no_separator (rpath : list ascii) :
  filepath.Separator ∉ filepath.last_element rpath.
Proof.
  induction rpath as [|c rpath IH]; simpl; [apply not_elem_of_nil |].
  unfold filepath.IsPathSeparator. case_bool_decide as Hc.
  - apply not_elem_of_nil.
  - rewrite not_elem_of_cons. split; [congruence | done].
Qed.

Lemma skip_separators_nil (rpath : list ascii) :
  filepath.skip_separators rpath = []
  <-> Forall (λ c, c = filepath.Separator) rpath.
Proof.
  induction rpath as [|c rpath IH]; simpl; [by split |].
  unfold filepath.IsPathSeparator. case_bool_decide as Hc.
  - rewrite IH, Forall_cons. tauto.
  - split; [done |]. intros [? _]%Forall_cons. done.
Qed.

Lemma skip_separators_head (rpath : list ascii) :
  match filepath.skip_separators rpath with
  | c :: _ => c <> filepath.Separator
  | [] => True
  end.
Proof.
  induction rpath as [|c rpath IH]; simpl; [done |].
  unfold filepath.IsPathSeparator. by case_bool_decide.
Qed.

(** A base name is the lone separator or holds no separator at all. *)
Lemma Base_cases (path : string) :
  filepath.Base path = "/" \/ filepath.Separator ∉ chars (filepath.Base path).
Proof.
  unfold filepath.Base. case_bool_decide.
  { right. simpl. by rewrite list_elem_of_singleton. }
  case_bool_decide as He; [by left |]. right.
  rewrite chars_of_chars, elem_of_reverse. apply last_element_no_separator.
Qed.

Lemma Base_nonempty (path : string) : filepath.Base path <> "".
Proof.
  unfold filepath.Base. repeat case_bool_decide; done.
Qed.

(** The base name is the lone separator exactly for a non-empty path made
    of separators only. *)
Lemma Base_separator (path : string) :
  filepath.Base path = "/"
  <-> path <> "" /\ Forall (λ c, c = filepath.Separator) (chars path).
Proof.
  unfold filepath.Base. case_bool_decide as Hp.
  { subst. split; [done | intros [? _]; done]. }
  pose proof (skip_separators_head (reverse (chars path))) as Hh.
  destruct (filepath.skip_separators (reverse (chars path))) as [|c r] eqn:Hs.
  - simpl. apply skip_separators_nil in Hs.
    rewrite Forall_reverse in Hs. by split.
  - assert (~ Forall (λ c, c = filepath.Separator) (chars path)) as Hn.
    { rewrite <- Forall_reverse, <- skip_separators_nil, Hs. done. }
    simpl. unfold filepath.IsPathSeparator.
    rewrite (bool_decide_eq_false_2 (c = _)) by done.
    case_bool_decide as He.
    + apply (f_equal chars) in He. rewrite chars_of_chars in He.
      simpl in He. apply (f_equal length) in He.
      rewrite length_reverse in He. done.
    + split; [| tauto]. intros Heq. exfalso.
      pose proof (last_element_no_separator (c :: r)) as Hl.
      simpl in Hl. unfold filepath.IsPathSeparator in Hl.
      rewrite (bool_decide_eq_false_2 (c = _)) in Hl by done.
      apply Hl. apply elem_of_reverse. 
      apply (f_equal chars) in Heq. rewrite chars_of_chars in Heq.
      rewrite Heq. simpl. by rewrite list_elem_of_singleton.
Qed.

Lemma skip_separators_id (rpath : list ascii) :
  filepath.Separator ∉ rpath -> filepath.skip_separators rpath = rpath.
Proof.
  destruct rpath as [|c rpath]; [done |]. intros [Hc _]%not_elem_of_cons.
  simpl. unfold filepath.IsPathSeparator.
  by rewrite bool_decide_eq_false_2 by congruence.
Qed.

Lemma last_element_id (rpath : list ascii) :
  filepath.Separator ∉ rpath -> filepath.last_element rpath = rpath.
Proof.
  induction rpath as [|c rpath IH]; [done |].
  intros [Hc Hr]%not_elem_of_cons. simpl. unfold filepath.IsPathSeparator.
  rewrite bool_decide_eq_false_2 by congruence. by rewrite IH.
Qed.

(** A name without directories is its own base. *)
Lemma Base_plain_name (name : string) :
  name <> "" -> filepath.Separator ∉ chars name -> filepath.Base name = name.
Proof.
  intros Hn Hs. unfold filepath.Base. rewrite bool_decide_eq_false_2 by done.
  assert (filepath.Separator ∉ reverse (chars name)) as Hr
    by (by rewrite elem_of_reverse).
  rewrite skip_separators_id, last_element_id, reverse_involutive,
    of_chars_chars by done.
  by rewrite bool_decide_eq_false_2.
Qed.

(** ** UUIDs and their text *)

Lemma fill_length (bs : list byte) : length (uuid.fill bs) = 16%nat.
Proof.
  unfold uuid.fill. rewrite length_take, length_app, length_replicate. lia.
Qed.

Lemma version4_length (bs : list byte) : length (uuid.version4 bs) = 16%nat.
Proof. unfold uuid.version4. by rewrite !length_alter, fill_length. Qed.

Lemma hexdigit_inj (n m : N) :
  (n < 16)%N -> (m < 16)%N -> uuid.hexdigit n = uuid.hexdigit m -> n = m.
Proof.
  intros Hn Hm.
  assert (forall k, (k < 16)%N -> exists i, (i < 16)%nat /\ k = N.of_nat i)
    as Hnat.
  { intros k Hk. exists (N.to_nat k). lia. }
  destruct (Hnat n Hn) as (i & Hi & ->), (Hnat m Hm) as (j & Hj & ->).
  do 16 (destruct i as [|i]; [do 16 (destruct j as [|j]; [done |]); lia |]).
  lia.
Qed.

Lemma hexdigit_alphabet (n : N) : uuid.hexdigit n ∈ chars "0123456789abcdef".
Proof.
  unfold uuid.hexdigit.
  destruct (chars "0123456789abcdef" !! N.to_nat n) as [c|] eqn:Hc; simpl.
  - by eapply list_elem_of_lookup_2.
  - apply elem_of_cons. by left.
Qed.

Lemma hex_byte_inj (b b' : byte) :
  uuid.hexdigit (Byte.to_N b / 16) = uuid.hexdigit (Byte.to_N b' / 16) ->
  uuid.hexdigit (Byte.to_N b mod 16) = uuid.hexdigit (Byte.to_N b' mod 16) ->
  b = b'.
Proof.
  intros Hhi Hlo.
  pose proof (Byte.to_N_bounded b). pose proof (Byte.to_N_bounded b').
  apply hexdigit_inj in Hhi;
    [| apply N.Div0.div_lt_upper_bound; lia ..].
  apply hexdigit_inj in Hlo; [| apply N.mod_lt; lia ..].
  assert (Byte.to_N b = Byte.to_N b') as Heq.
  { rewrite (N.div_mod' (Byte.to_N b) 16), (N.div_mod' (Byte.to_N b') 16).
    congruence. }
  pose proof (Byte.of_to_N b) as Hb. rewrite Heq, Byte.of_to_N in Hb.
  congruence.
Qed.

Lemma hex_Encode_inj (l l' : list byte) :
  uuid.hex_Encode l = uuid.hex_Encode l' -> l = l'.
Proof.
  revert l'. induction l as [|b l IH]; intros [|b' l'] H; simpl in H;
    try done.
  injection H as Hhi Hlo Hrest. f_equal; [by apply hex_byte_inj | by apply IH].
Qed.

Lemma hex_Encode_len (l : list byte) :
  len (uuid.hex_Encode l) = (2 * length l)%nat.
Proof.
  unfold len. induction l as [|b l IH]; simpl; [done | rewrite IH; lia].
Qed.

Lemma hex_Encode_alphabet (l : list byte) (c : ascii) :
  c ∈ chars (uuid.hex_Encode l) -> c ∈ chars "0123456789abcdef".
Proof.
  induction l as [|b l IH]; simpl; [by intros ?%elem_of_nil |].
  intros [-> | [-> | H]%elem_of_cons]%elem_of_cons;
    [apply hexdigit_alphabet .. | by apply IH].
Qed.

Lemma String_len (u : uuid.UUID) :
  length u = 16%nat -> len (uuid.String_ u) = 36%nat.
Proof.
  intros Hu. unfold uuid.String_.
  rewrite !len_app, !hex_Encode_len, !length_take, !length_drop, !Hu.
  reflexivity.
Qed.

Lemma append_inj_len (a a' b b' : string) :
  len a = len a' -> a +:+ b = a' +:+ b' -> a = a' /\ b = b'.
Proof.
  intros Hl H. apply (f_equal chars) in H. rewrite !chars_app in H.
  apply app_inj_1 in H as [Ha Hb]; [| by rewrite <- !len_chars].
  split; by apply chars_inj.
Qed.

(** The text of a UUID determines its sixteen bytes. *)
Lemma String_inj (u u' : uuid.UUID) :
  length u = 16%nat -> length u' = 16%nat ->
  uuid.String_ u = uuid.String_ u' -> u = u'.
Proof.
  intros Hu Hu' H. unfold uuid.String_ in H.
  repeat match type of H with
  | ?a +:+ _ = ?a' +:+ _ =>
      let Hp := fresh "Hp" in
      apply append_inj_len in H as [Hp H];
        [ try apply hex_Encode_inj in Hp
        | rewrite ?hex_Encode_len, ?length_take, ?length_drop, ?Hu, ?Hu';
          reflexivity ]
  end.
  apply hex_Encode_inj in H.
  rewrite <- (take_drop 4 u), <- (take_drop 4 u').
  rewrite <- (take_drop 2 (drop 4 u)), <- (take_drop 2 (drop 4 u')).
  rewrite !drop_drop. simpl.
  rewrite <- (take_drop 2 (drop 6 u)), <- (take_drop 2 (drop 6 u')).
  rewrite !drop_drop. simpl.
  rewrite <- (take_drop 2 (drop 8 u)), <- (take_drop 2 (drop 8 u')).
  rewrite !drop_drop. simpl. congruence.
Qed.

Lemma String_no_separator (u : uuid.UUID) :
  filepath.Separator ∉ chars (uuid.String_ u).
Proof.
  unfold uuid.String_. rewrite !chars_app, !not_elem_of_app.
  assert (forall l, filepath.Separator ∉ chars (uuid.hex_Encode l)) as Hh.
  { intros l Hin%hex_Encode_alphabet. revert Hin.
    apply (bool_decide_unpack _). by vm_compute. }
  assert (filepath.Separator ∉ chars "-") as Hd.
  { simpl. by rewrite list_elem_of_singleton. }
  repeat split; auto.
Qed.

(** ** The producer *)

Lemma wrap64_small (z : Z) : - 2 ^ 63 <= z < 2 ^ 63 -> wrap64 z = z.
Proof. intros H. unfold wrap64. rewrite Z.mod_small; lia. Qed.

Lemma maxFileSizeByte_eq : maxFileSizeByte = 52428800.
Proof. reflexivity. Qed.

(** The loop in terms of [Read]: one call per pass, the end of the file
    leaving the loop. *)
Lemma copy_loop_Read (name : string) (file : Reader) (cs : Z) (pw : Pipe) :
  copy_loop name file cs pw =
  let '(res, file') := Read file in
  match iteration name res cs pw with
  | Continue cs' pw' =>
      match file with [] => (pw', []) | _ => copy_loop name file' cs' pw' end
  | Leave pw' => (pw', file')
  end.
Proof.
  destruct file as [|res file']; simpl; [done |].
  by destruct (iteration name res cs pw).
Qed.

(** A file within the ceiling is copied whole, and the pipe is still open
    when the loop ends. *)
Lemma copy_loop_within (name : string) (file : Reader) :
  forall (content data : list byte) (cs : Z),
  file_content file = Some content ->
  0 <= cs -> cs + Z.of_nat (length content) <= maxFileSizeByte ->
  exists rest,
    copy_loop name file cs (mkPipe data None None)
    = (mkPipe (data ++ content) None None, rest).
Proof.
  pose proof maxFileSizeByte_eq as Hmax.
  induction file as [|[chunk [e|]] file IH]; intros content data cs Hc Hcs Hle;
    simpl in Hc.
  - simplify_eq. exists []. simpl. by rewrite app_nil_r.
  - destruct (is_EOF e) eqn:He; [| done]. simplify_eq. exists file.
    simpl. destruct (0 <? Z.of_nat (length content)) eqn:Hn.
    + rewrite (proj2 (Z.ltb_ge _ _)); [simpl; by rewrite He |].
      unfold add64. rewrite wrap64_small; lia.
    + simpl. rewrite He. apply Z.ltb_ge in Hn.
      destruct content; [by rewrite app_nil_r | simpl in Hn; lia].
  - destruct (file_content file) as [c'|] eqn:Hc'; [| done].
    simpl in Hc. simplify_eq. rewrite length_app in Hle. simpl.
    destruct (0 <? Z.of_nat (length chunk)) eqn:Hn.
    + rewrite (proj2 (Z.ltb_ge _ _)) by (unfold add64; rewrite wrap64_small; lia).
      simpl. unfold add64. rewrite wrap64_small by lia.
      destruct (IH c' (data ++ chunk) (cs + Z.of_nat (length chunk))) as [rest Hr];
        [done | lia | lia |].
      exists rest. by rewrite Hr, app_assoc.
    + simpl. apply Z.ltb_ge in Hn.
      destruct chunk; [| simpl in Hn; lia].
      destruct (IH c' data cs) as [rest Hr]; [done | lia | simpl in Hle; lia |].
      exists rest. by rewrite Hr.
Qed.

Lemma bytes_of_cons (chunk : list byte) (e : option error) (seen : Reader) :
  bytes_of ((chunk, e) :: seen) = chunk ++ bytes_of seen.
Proof. done. Qed.

(** A file above the ceiling: the loop stops at the first chunk that takes
    the counter past the ceiling, closes the pipe with the size error, has
    written the chunks before that one only and has read nothing after it. *)
Lemma copy_loop_exceeds (name : string) (file : Reader) :
  forall (content data : list byte) (cs : Z),
  file_content file = Some content -> fits_buffer file ->
  0 <= cs <= maxFileSizeByte ->
  maxFileSizeByte < cs + Z.of_nat (length content) ->
  exists seen chunk e rest,
    file = seen ++ (chunk, e) :: rest
    /\ cs + Z.of_nat (length (bytes_of seen)) <= maxFileSizeByte
    /\ maxFileSizeByte
       < cs + Z.of_nat (length (bytes_of seen)) + Z.of_nat (length chunk)
    /\ copy_loop name file cs (mkPipe data None None)
       = (mkPipe (data ++ bytes_of seen) (Some (size_exceeded_error name)) None,
          rest).
Proof.
  pose proof maxFileSizeByte_eq as Hmax.
  induction file as [|[chunk [e|]] file IH];
    intros content data cs Hc Hfit Hcs Hgt; simpl in Hc.
  - simplify_eq. simpl in Hgt. lia.
  - destruct (is_EOF e) eqn:He; [| done]. simplify_eq.
    apply Forall_cons in Hfit as [Hb _]. simpl in Hb. unfold bufSize in Hb.
    exists [], content, (Some e), file. unfold bytes_of. simpl.
    rewrite app_nil_r. split; [done |]. split; [lia |]. split; [lia |].
    rewrite (proj2 (Z.ltb_lt 0 _)) by lia.
    unfold add64. rewrite wrap64_small by lia.
    by rewrite (proj2 (Z.ltb_lt _ _)) by lia.
  - destruct (file_content file) as [c'|] eqn:Hc'; [| done].
    simpl in Hc. simplify_eq. rewrite length_app in Hgt.
    apply Forall_cons in Hfit as [Hb Hfit]. simpl in Hb. unfold bufSize in Hb.
    simpl. destruct (0 <? Z.of_nat (length chunk)) eqn:Hn.
    + unfold add64. rewrite wrap64_small by lia.
      destruct (maxFileSizeByte <? cs + Z.of_nat (length chunk)) eqn:Hover.
      * apply Z.ltb_lt in Hover.
        exists [], chunk, None, file. unfold bytes_of. simpl.
        rewrite app_nil_r. repeat split; lia.
      * apply Z.ltb_ge in Hover. simpl.
        destruct (IH c' (data ++ chunk) (cs + Z.of_nat (length chunk)))
          as (seen & ch & e & rest & -> & Hlo & Hhi & Hr);
          [done | done | lia | lia |].
        exists ((chunk, None) :: seen), ch, e, rest.
        rewrite bytes_of_cons, !length_app.
        split; [done |]. split; [lia |]. split; [lia |].
        by rewrite Hr, app_assoc.
    + apply Z.ltb_ge in Hn. destruct chunk; [| simpl in Hn; lia].
      simpl in Hgt. simpl.
      destruct (IH c' data cs)
        as (seen & ch & e & rest & -> & Hlo & Hhi & Hr);
        [done | done | lia | lia |].
      exists (([], None) :: seen), ch, e, rest.
      rewrite bytes_of_cons. simpl. by rewrite Hr.
Qed.

(** Whatever the reader does, the loop never lets the bytes in the pipe
    take the counter past the ceiling. *)
Lemma copy_loop_bounded (name : string) (file : Reader) :
  forall (data : list byte) (cs : Z),
  fits_buffer file -> 0 <= cs <= maxFileSizeByte ->
  exists written,
    p_data (copy_loop name file cs (mkPipe data None None)).1 = data ++ written
    /\ cs + Z.of_nat (length written) <= maxFileSizeByte.
Proof.
  pose proof maxFileSizeByte_eq as Hmax.
  induction file as [|[chunk e] file IH]; intros data cs Hfit Hcs.
  { exists []. simpl. rewrite app_nil_r. split; [done | lia]. }
  apply Forall_cons in Hfit as [Hb Hfit]. simpl in Hb. unfold bufSize in Hb.
  assert (forall d c,
            0 <= c <= maxFileSizeByte ->
            exists written,
              p_data (match after_chunk e c (mkPipe d None None) with
                      | Continue c' pw' => copy_loop name file c' pw'
                      | Leave pw' => (pw', file)
                      end).1 = d ++ written
              /\ c + Z.of_nat (length written) <= maxFileSizeByte) as Hafter.
  { intros d c Hc. destruct e as [e|]; simpl; [| by apply IH].
    exists []. rewrite app_nil_r. split; [by destruct (is_EOF e) | simpl; lia]. }
  simpl. destruct (0 <? Z.of_nat (length chunk)) eqn:Hn; [| by apply Hafter].
  unfold add64. rewrite wrap64_small by lia.
  destruct (maxFileSizeByte <? cs + Z.of_nat (length chunk)) eqn:Hover.
  - exists []. simpl. rewrite app_nil_r. split; [done | lia].
  - apply Z.ltb_ge in Hover. simpl.
    destruct (Hafter (data ++ chunk) (cs + Z.of_nat (length chunk)))
      as (written & Hw & Hle); [lia |].
    exists (chunk ++ written). rewrite length_app.
    split; [by rewrite Hw, app_assoc | lia].
Qed.

Lemma producer_bounded (name : string) (file : Reader) :
  fits_buffer file ->
  Z.of_nat (length (p_data (producer name file io_Pipe).1)) <= maxFileSizeByte.
Proof.
  intros Hfit. unfold producer, io_Pipe.
  destruct (copy_loop_bounded name file [] 0 Hfit) as (written & Hw & Hle);
    [rewrite maxFileSizeByte_eq; lia |].
  destruct (copy_loop name file 0 (mkPipe [] None None)) as [pw rest].
  simpl in *. unfold pw_Close, pw_CloseWithError.
  destruct (p_werr pw); simpl; rewrite Hw; simpl; lia.
Qed.

(** ** The reference store *)

Import Store.

(** Unfolds the plumbing of [M]. *)
Ltac run :=
  unfold mbind, M_bind, mret, M_ret, get, put in *; simpl in *.

Lemma available_after_draw (w : World) : available (after_draw w) <-> available w.
Proof. unfold available, next_outage. run. by destruct (outages w). Qed.

Lemma bucket_after_call (w : World) : bucket (after_call w) = bucket w.
Proof. unfold after_call, next_outage. run. by destruct (outages w). Qed.

Lemma entropy_after_call (w : World) : entropy (after_call w) = entropy w.
Proof. unfold after_call, next_outage. run. by destruct (outages w). Qed.

Lemma next_outage_eq (w : World) :
  next_outage w = ((next_outage w).1, after_call w).
Proof. unfold after_call. by destruct (next_outage w). Qed.

Lemma uuid_New_drawn (w : World) :
  (16 <= length (entropy w))%nat ->
  uuid_New services w = (Some (next_uuid w), after_draw w).
Proof.
  intros H. unfold uuid_New, services, readRandom. run.
  by rewrite bool_decide_eq_true_2.
Qed.

Lemma uuid_New_length (w w' : World) (u : uuid.UUID) :
  uuid_New services w = (Some u, w') -> length u = 16%nat.
Proof.
  unfold uuid_New, services, readRandom. run.
  case_bool_decide; simpl; [| done].
  intros [= <- _]. apply version4_length.
Qed.

Lemma putObject_outage (key : string) (body : Pipe) (w : World) (e : error) :
  (next_outage w).1 = Some e ->
  putObject key body w = (Some e, after_call w).
Proof.
  intros H. unfold putObject, mbind, M_bind.
  rewrite next_outage_eq, H. done.
Qed.

Lemma putObject_stored (key : string) (data : list byte) (w : World) :
  available w ->
  putObject key (mkPipe data (Some io_EOF) None) w
  = (None, stored key data (after_call w)).
Proof.
  intros H. unfold putObject, mbind, M_bind.
  rewrite next_outage_eq, H. done.
Qed.

Lemma putObject_aborted (key : string) (body : Pipe) (w : World) (e : error) :
  available w -> p_werr body = Some e -> is_EOF e = false ->
  putObject key body w
  = (Some (awsError "ReadRequestBody" "read upload data failed" (Some e)),
     after_call w).
Proof.
  intros H Hw He. unfold putObject, mbind, M_bind.
  rewrite next_outage_eq, H, Hw, He. done.
Qed.

(** An aborted or unfinished stream never changes the bucket, whatever the
    fate of the call. *)
Lemma putObject_no_object (key : string) (body : Pipe) (w : World) :
  p_werr body <> Some io_EOF ->
  exists e, putObject key body w = (Some e, after_call w).
Proof.
  intros Hw. unfold putObject, mbind, M_bind. rewrite next_outage_eq.
  destruct (next_outage w).1 as [e|]; [by eexists |].
  destruct (p_werr body) as [e|]; [| by eexists].
  destruct e; [done | by eexists ..].
Qed.

(** ** One pass of the upload loop *)

Lemma producer_within (name : string) (file : Reader) (content : list byte) :
  file_content file = Some content ->
  Z.of_nat (length content) <= maxFileSizeByte ->
  exists rest,
    producer name file io_Pipe = (mkPipe content (Some io_EOF) None, rest).
Proof.
  intros Hc Hle. unfold producer, io_Pipe.
  destruct (copy_loop_within name file content [] 0 Hc) as [rest ->];
    [lia | lia |].
  by exists rest.
Qed.

Lemma producer_exceeds (name : string) (file : Reader) (content : list byte) :
  file_content file = Some content -> fits_buffer file ->
  maxFileSizeByte < Z.of_nat (length content) ->
  exists seen chunk e rest,
    file = seen ++ (chunk, e) :: rest
    /\ Z.of_nat (length (bytes_of seen)) <= maxFileSizeByte
       < Z.of_nat (length (bytes_of seen)) + Z.of_nat (length chunk)
    /\ producer name file io_Pipe
       = (mkPipe (bytes_of seen) (Some (size_exceeded_error name)) None, rest).
Proof.
  intros Hc Hfit Hgt. unfold producer, io_Pipe.
  destruct (copy_loop_exceeds name file content [] 0 Hc Hfit)
    as (seen & chunk & e & rest & -> & Hlo & Hhi & ->);
    [rewrite maxFileSizeByte_eq; lia | lia |].
  exists seen, chunk, e, rest. repeat split; try lia.
Qed.

Section Loop.

Context {St : Type} (svc : Collaborators St).

Lemma upload_loop_skip (fh : multipart.FileHeader)
    (files : list multipart.FileHeader) (acc : list string) :
  multipart.Filename fh = "" ->
  upload_loop svc (fh :: files) acc = upload_loop svc files acc.
Proof. intros H. simpl. by rewrite bool_decide_eq_true_2. Qed.

(** A pass whose file opens, whose identifier is drawn and whose put
    returns [err]. *)
Lemma upload_loop_put (name : string) (file : Reader)
    (files : list multipart.FileHeader) (acc : list string)
    (s s1 s2 : St) (u : uuid.UUID) (err : option error) :
  name <> "" ->
  uuid_New svc s = (Some u, s1) ->
  Upload svc (uniqueFilename u name) (producer name file io_Pipe).1 s1
  = (err, s2) ->
  upload_loop svc (multipart.mkFileHeader name (inl file) :: files) acc s
  = match err with
    | Some err =>
        (if Contains (Error err) size_exceeded_suffix
         then HTTPError StatusRequestEntityTooLarge (Error err)
         else HTTPError StatusInternalServerError
                ("Could not upload file '" +:+ name +:+ "'"), s2)
    | None => upload_loop svc files (acc ++ [uniqueFilename u name]) s2
    end.
Proof.
  intros Hn Hu Hp. simpl. rewrite bool_decide_eq_false_2 by done.
  unfold mbind at 1, M_bind at 1. rewrite Hu.
  destruct (producer name file io_Pipe) as [pr rest]. simpl in Hp.
  unfold mbind, M_bind. rewrite Hp.
  destruct err as [err|]; [| done].
  by destruct (Contains (Error err) size_exceeded_suffix).
Qed.

(** The loop answers 201 only at the end of the list, so a run over a
    prefix that ends in 201 continues unchanged into the rest. *)
Lemma upload_loop_app (pre rest : list multipart.FileHeader) :
  forall (acc keys : list string) (s s1 : St) (code : Z) (msg : string),
  upload_loop svc pre acc s = (JSON_uploaded code msg keys, s1) ->
  upload_loop svc (pre ++ rest) acc s = upload_loop svc rest keys s1.
Proof.
  induction pre as [|fh pre IH]; intros acc keys s s1 code msg H.
  - simpl in H. unfold mret, M_ret in H. by simplify_eq.
  - simpl in *. case_bool_decide; [by eapply IH |].
    destruct (multipart.Open fh) as [file | e]; [| by inversion H].
    unfold mbind, M_bind in *.
    destruct (uuid_New svc s) as [[u|] s']; [| by inversion H].
    destruct (producer _ file io_Pipe) as [pr rd].
    destruct (Upload svc _ pr s') as [[err|] s''].
    + by destruct (Contains (Error err) size_exceeded_suffix); inversion H.
    + by eapply IH.
Qed.

(** The statuses the loop can answer with. *)
Lemma upload_loop_status (files : list multipart.FileHeader) :
  forall (acc : list string) (s : St),
  status (upload_loop svc files acc s).1 = StatusCreated
  \/ status (upload_loop svc files acc s).1 = StatusRequestEntityTooLarge
  \/ status (upload_loop svc files acc s).1 = StatusInternalServerError.
Proof.
  induction files as [|fh files IH]; intros acc s; simpl; [by left |].
  case_bool_decide; [apply IH |].
  destruct (multipart.Open fh) as [file | e]; [| by right; right].
  unfold mbind, M_bind.
  destruct (uuid_New svc s) as [[u|] s']; [| by right; right].
  destruct (producer _ file io_Pipe) as [pr rd].
  destruct (Upload svc _ pr s') as [[err|] s'']; [| apply IH].
  destruct (Contains (Error err) size_exceeded_suffix); simpl; auto.
Qed.

End Loop.

Lemma upload_loop_stored (w : World) (name : string) (file : Reader)
    (content : list byte) (files : list multipart.FileHeader)
    (acc : list string) :
  name <> "" -> file_content file = Some content ->
  Z.of_nat (length content) <= maxFileSizeByte ->
  (16 <= length (entropy w))%nat -> available w ->
  upload_loop services (multipart.mkFileHeader name (inl file) :: files) acc w
  = upload_loop services files (acc ++ [uniqueFilename (next_uuid w) name])
      (stored (uniqueFilename (next_uuid w) name) content
         (after_call (after_draw w))).
Proof.
  intros Hn Hc Hle He Ha.
  destruct (producer_within name file content Hc Hle) as [rest Hp].
  erewrite upload_loop_put; [| done | by apply uuid_New_drawn |].
  2: { rewrite Hp. simpl. apply putObject_stored.
       by apply available_after_draw. }
  done.
Qed.

Lemma io_Copy_content (file : Reader) (content : list byte) :
  file_content file = Some content -> io_Copy file = (content, None).
Proof.
  revert content. induction file as [|[chunk [e|]] file IH]; intros content H;
    simpl in *.
  - by simplify_eq.
  - destruct (is_EOF e); by simplify_eq.
  - destruct (file_content file) as [c|]; [| done]. simpl in H. simplify_eq.
    by rewrite (IH c).
Qed.

Lemma getObject_found (w : World) (key : string) (obj : StoredObject) :
  available w -> bucket w !! key = Some obj ->
  getObject key w
  = (inl (s3.mkGetObjectOutput [(content obj, None)] (content_type obj)
            (Some (Z.of_nat (length (content obj))))), after_call w).
Proof.
  intros Ha Hk. unfold getObject, mbind at 1, M_bind at 1.
  rewrite next_outage_eq, Ha. run. by rewrite bucket_after_call, Hk.
Qed.

Lemma getObject_absent (w : World) (key : string) :
  available w -> bucket w !! key = None ->
  getObject key w
  = (inr (awsError s3.ErrCodeNoSuchKey "The specified key does not exist."
            None), after_call w).
Proof.
  intros Ha Hk. unfold getObject, mbind at 1, M_bind at 1.
  rewrite next_outage_eq, Ha. run. by rewrite bucket_after_call, Hk.
Qed.

Lemma getFileHandler_found (w : World) (key : string) (obj : StoredObject) :
  available w -> bucket w !! key = Some obj ->
  getFileHandler services key w
  = (Streamed
       [("Content-Type", aws_StringValue (content_type obj));
        ("Content-Length", Itoa (Z.of_nat (length (content obj))));
        ("Content-Disposition",
         "attachment; filename=" +:+ quote +:+ key +:+ quote)]
       (content obj), after_call w).
Proof.
  intros Ha Hk. unfold getFileHandler, mbind, M_bind. simpl.
  rewrite (getObject_found w key obj Ha Hk). simpl.
  by rewrite app_nil_r.
Qed.

Lemma getFileHandler_absent (w : World) (key : string) :
  available w -> bucket w !! key = None ->
  getFileHandler services key w
  = (HTTPError StatusNotFound ("File '" +:+ key +:+ "' not found."),
     after_call w).
Proof.
  intros Ha Hk. unfold getFileHandler, mbind, M_bind. simpl.
  by rewrite (getObject_absent w key Ha Hk).
Qed.

(** ** Sanity checks of the handlers *)

Example upload_read_error :
  uploadFilesHandler services
    (inl [multipart.mkFileHeader "a.txt"
            (inl [(["h"]%byte, None); ([], Some (errorString "disk failure"))])])
    sample_world
  = (HTTPError StatusInternalServerError "Could not upload file 'a.txt'",
     after_draw sample_world).
Proof. reflexivity. Qed.

Example upload_backend_down :
  status
    (uploadFilesHandler services (inl [sample_part])
       (mkWorld ∅ [Some (errorString "connection refused")] sample_entropy 0)).1
  = StatusInternalServerError.
Proof. reflexivity. Qed.

Example upload_cannot_open :
  uploadFilesHandler services
    (inl [sample_part;
          multipart.mkFileHeader "b.txt" (inr (errorString "no such file"))])
    sample_world
  = (HTTPError StatusInternalServerError "Could not open file 'b.txt'",
     stored "10325476-98ba-4cfe-8123-456789abcdef_a.txt" sample_content
       (after_call (after_draw sample_world))).
Proof. reflexivity. Qed.

Example upload_without_randomness :
  uploadFilesHandler services (inl [sample_part]) (mkWorld ∅ [] [] 0)
  = (Panicked, mkWorld ∅ [] [] 0).
Proof. reflexivity. Qed.

Example get_backend_down :
  getFileHandler services "a.txt"
    (mkWorld ∅ [Some (awsError "RequestError" "send request failed" None)] [] 0)
  = (HTTPError StatusInternalServerError "Failed to retrieve file.",
     mkWorld ∅ [] [] 0).
Proof. reflexivity. Qed.

Example list_backend_down :
  status
    (listFilesHandler services
       (mkWorld ∅ [Some (errorString "connection refused")] [] 0)).1
  = StatusInternalServerError.
Proof. reflexivity. Qed.

(** ** Upload within the ceiling *)

(** C1.  A file part with a non-empty name whose content is at most the
    ceiling of 50 MiB (a content of exactly the ceiling included): the
    producer hands the content to the put operation unchanged and closes
    the pipe normally, the pass of the upload loop stores the content under
    the fresh key and goes on to the next part with that key recorded, a
    request made of this part alone answers 201 with the key, and a get of
    the key afterwards streams exactly the uploaded bytes.  The backend is
    taken to be reachable and the random source to deliver. *)
Theorem upload_within_ceiling_roundtrip (w : World) (name : string)
    (file : Reader) (content : list byte)
    (files : list multipart.FileHeader) (acc : list string) :
  name <> "" -> file_content file = Some content ->
  Z.of_nat (length content) <= maxFileSizeByte ->
  (16 <= length (entropy w))%nat -> available w ->
  let key := uniqueFilename (next_uuid w) name in
  let w' := stored key content (after_call (after_draw w)) in
  (exists rest,
     producer name file io_Pipe = (mkPipe content (Some io_EOF) None, rest))
  /\ upload_loop services (multipart.mkFileHeader name (inl file) :: files)
       acc w
     = upload_loop services files (acc ++ [key]) w'
  /\ uploadFilesHandler services
       (inl [multipart.mkFileHeader name (inl file)]) w
     = (JSON_uploaded StatusCreated "Files uploaded successfully" [key], w')
  /\ (Store.content <$> bucket w' !! key) = Some content
  /\ (available w' ->
      exists header,
        getFileHandler services key w'
        = (Streamed header content, after_call w')).
Proof.
  intros Hn Hc Hle He Ha key w'.
  split; [by apply producer_within |].
  split; [by apply upload_loop_stored |].
  split.
  { unfold uploadFilesHandler. simpl length.
    rewrite bool_decide_eq_false_2 by done.
    by rewrite (upload_loop_stored w name file content [] []). }
  assert (bucket w' !! key
          = Some (mkStoredObject content (Some "binary/octet-stream")
                    (clock (after_call (after_draw w))))) as Hk.
  { unfold w', stored. simpl. by rewrite lookup_insert_eq. }
  split; [by rewrite Hk |].
  intros Ha'. eexists. by rewrite (getFileHandler_found w' key _ Ha' Hk).
Qed.

Example upload_small_file :
  let key := "10325476-98ba-4cfe-8123-456789abcdef_a.txt" in
  let w' := stored key sample_content (after_call (after_draw sample_world)) in
  uploadFilesHandler services (inl [sample_part]) sample_world
  = (JSON_uploaded StatusCreated "Files uploaded successfully" [key], w')
  /\ getFileHandler services key w'
     = (Streamed [("Content-Type", "binary/octet-stream");
                  ("Content-Length", "5");
                  ("Content-Disposition",
                   "attachment; filename=" +:+ quote +:+ key +:+ quote)]
          sample_content, after_call w').
Proof. split; reflexivity. Qed.

(** ** Upload above the ceiling *)

Lemma uuid_New_bucket (w w1 : World) (u : option uuid.UUID) :
  uuid_New services w = (u, w1) -> bucket w1 = bucket w.
Proof.
  unfold uuid_New, services, readRandom. run.
  case_bool_decide; simpl; by intros [= _ <-].
Qed.

(** The text of the producer's size error is found in every error that
    carries it as its cause. *)
Lemma size_exceeded_recognised (name code message : string) :
  Contains (Error (awsError code message (Some (size_exceeded_error name))))
    size_exceeded_suffix = true.
Proof.
  apply Contains_spec. simpl.
  exists (code +:+ ": " +:+ message +:+ newline +:+ "caused by: "
          +:+ "file '" +:+ name +:+ "' "), "".
  rewrite app_empty_r. by rewrite !app_assoc_s.
Qed.

(** C2.  A file whose content exceeds the ceiling of 50 MiB: the producer
    stops at the first chunk that takes the running counter past the
    ceiling, closes the pipe with the size error without writing that chunk
    and reads nothing after it, so what went into the pipe is at most the
    ceiling; the put call fails in every state of the backend and leaves
    the bucket as it was; the pass of the upload loop ends the request with
    an error response, never with a list of uploaded keys, and the bucket
    is the one before the pass; with the backend reachable the response is
    413. *)
Theorem oversized_upload_rejected (name : string) (file : Reader)
    (content : list byte) :
  name <> "" -> file_content file = Some content -> fits_buffer file ->
  maxFileSizeByte < Z.of_nat (length content) ->
  (exists seen chunk e rest,
     file = seen ++ (chunk, e) :: rest
     /\ Z.of_nat (length (bytes_of seen)) <= maxFileSizeByte
        < Z.of_nat (length (bytes_of seen)) + Z.of_nat (length chunk)
     /\ producer name file io_Pipe
        = (mkPipe (bytes_of seen) (Some (size_exceeded_error name)) None,
           rest))
  /\ (forall key w, exists e,
        putObject key (producer name file io_Pipe).1 w = (Some e, after_call w)
        /\ bucket (after_call w) = bucket w)
  /\ (forall files acc w, exists r w',
        upload_loop services
          (multipart.mkFileHeader name (inl file) :: files) acc w
        = (r, w')
        /\ bucket w' = bucket w
        /\ (forall code msg keys, r <> JSON_uploaded code msg keys)
        /\ (status r = StatusRequestEntityTooLarge
            \/ status r = StatusInternalServerError)
        /\ ((16 <= length (entropy w))%nat -> available w ->
            status r = StatusRequestEntityTooLarge)).
Proof.
  intros Hn Hc Hfit Hgt.
  destruct (producer_exceeds name file content Hc Hfit Hgt)
    as (seen & chunk & e & rest & Hfile & Hbound & Hp).
  split; [by exists seen, chunk, e, rest |].
  assert (p_werr (producer name file io_Pipe).1 <> Some io_EOF) as Hw
    by (by rewrite Hp).
  split.
  { intros key w. destruct (putObject_no_object key _ w Hw) as [err Herr].
    exists err. split; [done | apply bucket_after_call]. }
  intros files acc w.
  destruct (decide (16 <= length (entropy w))%nat) as [He | He].
  - pose proof (uuid_New_drawn w He) as Hu.
    destruct (putObject_no_object (uniqueFilename (next_uuid w) name) _
                (after_draw w) Hw) as [err Herr].
    rewrite (upload_loop_put services name file files acc w _ _ _ _ Hn Hu Herr).
    eexists _, (after_call (after_draw w)). split; [done |].
    split; [by rewrite bucket_after_call |].
    destruct (Contains (Error err) size_exceeded_suffix) eqn:Hcont.
    + repeat split; auto; done.
    + split; [done |]. split; [by right |]. intros _ Ha. exfalso.
      rewrite (putObject_aborted _ _ (after_draw w)
                 (size_exceeded_error name)) in Herr;
        [| by apply available_after_draw | by rewrite Hp | done].
      injection Herr as <-.
      by rewrite size_exceeded_recognised in Hcont.
  - simpl. rewrite bool_decide_eq_false_2 by done.
    unfold mbind, M_bind.
    destruct (uuid_New services w) as [[u|] w1] eqn:Hu.
    + exfalso. revert Hu. unfold uuid_New, services, readRandom. run.
      by rewrite bool_decide_eq_false_2.
    + exists Panicked, w1. split; [done |].
      split; [by eapply uuid_New_bucket |].
      split; [done |]. split; [by right | done].
Qed.

Lemma file_content_app (n : nat) (chunk : list byte) (file : Reader)
    (content : list byte) :
  file_content file = Some content ->
  file_content (replicate n (chunk, None) ++ file)
  = Some (concat (replicate n chunk) ++ content).
Proof.
  intros H. induction n as [|n IH]; [done |].
  cbn [replicate app concat file_content]. rewrite IH. simpl.
  by rewrite app_assoc.
Qed.

Lemma length_concat_replicate (n : nat) (chunk : list byte) :
  length (concat (replicate n chunk)) = (n * length chunk)%nat.
Proof.
  induction n as [|n IH]; [done |].
  cbn [replicate concat]. rewrite length_app, IH. lia.
Qed.

Lemma full_chunk_length : Z.of_nat (length full_chunk) = bufSize.
Proof. unfold full_chunk. rewrite length_replicate. by apply Z2Nat.id. Qed.

Lemma oversized_file_content : file_content oversized_file = Some oversized_content.
Proof. unfold oversized_file, oversized_content. by apply file_content_app. Qed.

Lemma oversized_file_fits : fits_buffer oversized_file.
Proof.
  unfold fits_buffer, oversized_file. apply Forall_app. split.
  - apply Forall_replicate. cbn [fst]. rewrite full_chunk_length. lia.
  - apply Forall_singleton. by cbn.
Qed.

Lemma oversized_content_length :
  Z.of_nat (length oversized_content) = maxFileSizeByte + 1.
Proof.
  unfold oversized_content.
  rewrite length_app, length_concat_replicate, Nat2Z.inj_add, Nat2Z.inj_mul.
  rewrite full_chunk_length. reflexivity.
Qed.

Lemma oversized_upload_rejected_witness :
  exists r w',
    upload_loop services [oversized_part] [] sample_world = (r, w')
    /\ bucket w' = bucket sample_world
    /\ status r = StatusRequestEntityTooLarge.
Proof.
  destruct (oversized_upload_rejected "big.bin" oversized_file
              oversized_content) as (_ & _ & H);
    [ discriminate | exact oversized_file_content | exact oversized_file_fits
    | rewrite oversized_content_length; lia | ].
  destruct (H [] [] sample_world) as (r & w' & Hr & Hb & _ & _ & Hs).
  exists r, w'. split; [exact Hr |]. split; [exact Hb |].
  apply Hs; [simpl; lia | reflexivity].
Defined.

Lemma ceiling_file_content : file_content ceiling_file = Some ceiling_content.
Proof. unfold ceiling_file, ceiling_content. by apply file_content_app. Qed.

Lemma ceiling_content_length :
  Z.of_nat (length ceiling_content) = maxFileSizeByte.
Proof.
  unfold ceiling_content.
  rewrite length_app, length_concat_replicate, Nat2Z.inj_add, Nat2Z.inj_mul.
  rewrite full_chunk_length. reflexivity.
Qed.

Lemma upload_within_ceiling_roundtrip_witness :
  let key := "10325476-98ba-4cfe-8123-456789abcdef_a.txt" in
  let w' := stored key ceiling_content (after_call (after_draw sample_world)) in
  Z.of_nat (length ceiling_content) = maxFileSizeByte
  /\ uploadFilesHandler services (inl [ceiling_part]) sample_world
     = (JSON_uploaded StatusCreated "Files uploaded successfully" [key], w')
  /\ exists header,
       getFileHandler services key w'
       = (Streamed header ceiling_content, after_call w').
Proof.
  destruct (upload_within_ceiling_roundtrip sample_world "a.txt" ceiling_file
              ceiling_content [] [])
    as (_ & _ & Hup & _ & Hget);
    [ discriminate | exact ceiling_file_content
    | rewrite ceiling_content_length; lia | simpl; lia | reflexivity | ].
  split; [exact ceiling_content_length |].
  split; [exact Hup | apply Hget; reflexivity].
Defined.

(** ** How upload failures are told apart *)

Lemma Contains_caused_by (code message text : string) (cause : error) :
  Contains (Error cause) text = true ->
  Contains (Error (awsError code message (Some cause))) text = true.
Proof.
  rewrite !Contains_spec. intros (a & b & Hab). simpl. rewrite Hab.
  exists (code +:+ ": " +:+ message +:+ newline +:+ "caused by: " +:+ a), b.
  by rewrite !app_assoc_s.
Qed.

Lemma Contains_wrapped (layers : list (string * string)) (text : string)
    (cause : error) :
  Contains (Error cause) text = true ->
  Contains (Error (wrapped layers cause)) text = true.
Proof.
  intros H. induction layers as [|[code message] layers IH]; [done |].
  simpl. by apply Contains_caused_by.
Qed.

(** C3, as stated, fails.  A five-byte file sent while the backend is
    unreachable, and a client stream that breaks after two bytes: neither
    upload failed for its size, the producer never raised the size error,
    yet both requests are answered 413 instead of 500, because the text of
    the failure happens to contain the words the handler looks for. *)
Lemma status_413_without_size_excess :
  (file_content sample_file = Some sample_content
   /\ Z.of_nat (length sample_content) <= maxFileSizeByte
   /\ p_werr (producer "a.txt" sample_file io_Pipe).1 = Some io_EOF
   /\ status (uploadFilesHandler services (inl [sample_part]) outage_world).1
      = StatusRequestEntityTooLarge)
  /\ (Z.of_nat (length (bytes_of broken_file)) <= maxFileSizeByte
      /\ p_werr (producer "a.txt" broken_file io_Pipe).1
         <> Some (size_exceeded_error "a.txt")
      /\ status (uploadFilesHandler services (inl [broken_part]) sample_world).1
         = StatusRequestEntityTooLarge).
Proof. repeat split; (reflexivity || discriminate). Qed.

(** C3, amended.  When the put call of a file fails with [err], the upload
    handler answers 413 exactly when the text of [err] contains
    "exceeds the maximum allowed size of 50MB" and 500 otherwise, echoing
    the text in the first case.  The producer's size error has that text,
    and so has every error that carries it as its cause, at any depth:
    when [err] is the size error under any number of wrappers the answer
    is 413.  A put that fails with another error is answered by the text
    of that error, whatever the size of the file.  A file that cannot be
    opened is answered 500. *)
Theorem upload_failure_status {St : Type} (svc : Collaborators St)
    (name : string) (file : Reader) (files : list multipart.FileHeader)
    (acc : list string) (s s1 s2 : St) (u : uuid.UUID) (err : error) :
  name <> "" ->
  uuid_New svc s = (Some u, s1) ->
  Upload svc (uniqueFilename u name) (producer name file io_Pipe).1 s1
  = (Some err, s2) ->
  let r :=
    (upload_loop svc (multipart.mkFileHeader name (inl file) :: files) acc s).1
  in
  (status r = StatusRequestEntityTooLarge
   <-> exists a b, Error err = a +:+ size_exceeded_suffix +:+ b)
  /\ (status r = StatusInternalServerError
      <-> ~ exists a b, Error err = a +:+ size_exceeded_suffix +:+ b)
  /\ (status r = StatusRequestEntityTooLarge ->
      r = HTTPError StatusRequestEntityTooLarge (Error err))
  /\ (exists b, Error (size_exceeded_error name)
                = ("file '" +:+ name +:+ "' ") +:+ size_exceeded_suffix +:+ b)
  /\ (forall code message,
        Contains (Error (awsError code message
                           (Some (size_exceeded_error name))))
          size_exceeded_suffix = true)
  /\ (forall e,
        status (upload_loop svc (multipart.mkFileHeader name (inr e) :: files)
                  acc s).1
        = StatusInternalServerError)
  /\ (forall layers,
        err = wrapped layers (size_exceeded_error name) ->
        r = HTTPError StatusRequestEntityTooLarge (Error err)).
Proof.
  intros Hn Hu Hp r. subst r.
  rewrite (upload_loop_put svc name file files acc s s1 s2 u (Some err)
             Hn Hu Hp).
  rewrite <- Contains_spec.
  assert (exists b, Error (size_exceeded_error name)
                    = ("file '" +:+ name +:+ "' ") +:+ size_exceeded_suffix
                      +:+ b) as Htext.
  { exists "". rewrite app_empty_r. simpl. by rewrite !app_assoc_s. }
  assert (forall e,
            status (upload_loop svc
                      (multipart.mkFileHeader name (inr e) :: files) acc s).1
            = StatusInternalServerError) as Hopen.
  { intros e. simpl. by rewrite bool_decide_eq_false_2. }
  pose proof (size_exceeded_recognised name) as Hwrapped.
  assert (forall layers,
            err = wrapped layers (size_exceeded_error name) ->
            Contains (Error err) size_exceeded_suffix = true) as Hdeep.
  { intros layers ->. apply Contains_wrapped, Contains_spec.
    destruct Htext as [b Hb]. eauto. }
  destruct (Contains (Error err) size_exceeded_suffix) eqn:Hc; simpl.
  - repeat split; done.
  - repeat split; try done. intros layers Hl. discriminate (Hdeep layers Hl).
Qed.

Lemma upload_failure_status_witness :
  (status (upload_loop services [broken_part] [] sample_world).1
   = StatusRequestEntityTooLarge
   <-> exists a b,
         Error (awsError "ReadRequestBody" "read upload data failed"
                  (Some (errorString
                           "read: frame exceeds the maximum allowed size of 50MB")))
         = a +:+ size_exceeded_suffix +:+ b)
  /\ (upload_loop services
        [multipart.mkFileHeader "big.bin" (inl sample_file)] []
        (mkWorld ∅ [Some multipart_abort] sample_entropy 0)).1
     = HTTPError StatusRequestEntityTooLarge (Error multipart_abort).
Proof.
  split.
  - refine (proj1 (upload_failure_status services "a.txt" broken_file [] []
                     sample_world (after_draw sample_world)
                     (after_call (after_draw sample_world))
                     (next_uuid sample_world) _ _ _ _));
      [discriminate | reflexivity | reflexivity].
  - refine (proj2 (proj2 (proj2 (proj2 (proj2 (proj2
              (upload_failure_status services "big.bin" sample_file [] []
                 (mkWorld ∅ [Some multipart_abort] sample_entropy 0)
                 (after_draw
                    (mkWorld ∅ [Some multipart_abort] sample_entropy 0))
                 (after_call
                    (after_draw
                       (mkWorld ∅ [Some multipart_abort] sample_entropy 0)))
                 (next_uuid sample_world) multipart_abort _ _ _))))))
              multipart_layers _);
      [discriminate | reflexivity | reflexivity | reflexivity].
Defined.

(** ** Partial batches *)

(** A put that succeeds has stored the whole stream under its key and
    touched nothing else in the bucket. *)
Lemma putObject_success (key : string) (body : Pipe) (w w' : World) :
  putObject key body w = (None, w') ->
  p_werr body = Some io_EOF /\ w' = stored key (p_data body) (after_call w).
Proof.
  unfold putObject, mbind at 1, M_bind at 1. rewrite next_outage_eq.
  destruct (next_outage w).1 as [e|]; [by inversion 1 |].
  destruct (p_werr body) as [e|]; [| by inversion 1].
  destruct e; by inversion 1.
Qed.

(** The keys a run of the loop reports are those it was given followed by
    new ones, all present in the bucket afterwards; the run removes
    nothing from the bucket. *)
Lemma upload_loop_keys (files : list multipart.FileHeader) :
  forall (acc keys : list string) (w w1 : World) (code : Z) (msg : string),
  upload_loop services files acc w = (JSON_uploaded code msg keys, w1) ->
  dom (bucket w) ⊆ dom (bucket w1)
  /\ exists new, keys = acc ++ new
                 /\ Forall (λ k, k ∈ dom (bucket w1)) new.
Proof.
  induction files as [|fh files IH]; intros acc keys w w1 code msg H.
  - simpl in H. unfold mret, M_ret in H. simplify_eq.
    split; [done |]. exists []. by rewrite app_nil_r.
  - simpl in H. case_bool_decide; [by eapply IH |].
    destruct (multipart.Open fh) as [file | e]; [| by inversion H].
    unfold mbind, M_bind in H.
    destruct (uuid_New services w) as [[u|] w'] eqn:Hu; [| by inversion H].
    apply uuid_New_bucket in Hu.
    destruct (producer _ file io_Pipe) as [pr rd].
    change (Upload services) with putObject in H.
    destruct (putObject _ pr w') as [[err|] w''] eqn:Hput.
    { by destruct (Contains (Error err) size_exceeded_suffix); inversion H. }
    apply putObject_success in Hput as [_ ->].
    apply IH in H as (Hsub & new & -> & Hnew).
    unfold stored in Hsub. simpl in Hsub.
    rewrite dom_insert, bucket_after_call, Hu in Hsub.
    split; [intros k Hk; apply Hsub, elem_of_union; by right |].
    exists (uniqueFilename u (multipart.Filename fh) :: new).
    split; [by rewrite <- app_assoc |].
    apply Forall_cons. split; [| done].
    apply Hsub, elem_of_union. left. by apply elem_of_singleton.
Qed.

(** C4.  The files of a request are handled one at a time in the order
    submitted: a run over the files before some point that ended well is
    continued, from the state it left, by the run over the rest.  When the
    files before the i-th are uploaded and the i-th exceeds the ceiling,
    the request is answered 413; the bucket is the one left by the files
    before it, with each of their keys still present; and the files after
    it play no part, the response and the final state being those of the
    request cut after the i-th file. *)
Theorem partial_batch_not_rolled_back (w w1 : World)
    (pre post : list multipart.FileHeader) (keys : list string)
    (code : Z) (msg name : string) (file : Reader) (content : list byte) :
  upload_loop services pre [] w = (JSON_uploaded code msg keys, w1) ->
  name <> "" -> file_content file = Some content -> fits_buffer file ->
  maxFileSizeByte < Z.of_nat (length content) ->
  (16 <= length (entropy w1))%nat -> available w1 ->
  let big := multipart.mkFileHeader name (inl file) in
  (forall rest,
     upload_loop services (pre ++ rest) [] w = upload_loop services rest keys w1)
  /\ (exists text,
        uploadFilesHandler services (inl (pre ++ big :: post)) w
        = (HTTPError StatusRequestEntityTooLarge text,
           after_call (after_draw w1)))
  /\ bucket (after_call (after_draw w1)) = bucket w1
  /\ Forall (λ k, is_Some (bucket w1 !! k)) keys
  /\ uploadFilesHandler services (inl (pre ++ big :: post)) w
     = uploadFilesHandler services (inl (pre ++ [big])) w.
Proof.
  intros Hpre Hn Hc Hfit Hgt He Ha big.
  assert (forall rest,
            upload_loop services (pre ++ rest) [] w
            = upload_loop services rest keys w1) as Happ.
  { intros rest. by eapply upload_loop_app. }
  assert (forall rest,
            uploadFilesHandler services (inl (pre ++ big :: rest)) w
            = upload_loop services (big :: rest) keys w1) as Hhandler.
  { intros rest. unfold uploadFilesHandler.
    rewrite bool_decide_eq_false_2; [apply Happ |].
    rewrite length_app. simpl. lia. }
  destruct (producer_exceeds name file content Hc Hfit Hgt)
    as (seen & chunk & e & rd & _ & _ & Hp).
  assert (forall rest,
            upload_loop services (big :: rest) keys w1
            = (HTTPError StatusRequestEntityTooLarge
                 (Error (awsError "ReadRequestBody" "read upload data failed"
                           (Some (size_exceeded_error name)))),
               after_call (after_draw w1))) as Hbig.
  { intros rest. unfold big.
    erewrite upload_loop_put; [| done | by apply uuid_New_drawn |].
    2: { apply putObject_aborted;
           [by apply available_after_draw | by rewrite Hp | done]. }
    cbv beta iota. by rewrite size_exceeded_recognised. }
  split; [done |].
  split; [eexists; by rewrite Hhandler, Hbig |].
  split; [by rewrite bucket_after_call |].
  split.
  - apply upload_loop_keys in Hpre as (_ & new & -> & Hnew). simpl.
    eapply Forall_impl; [exact Hnew |]. intros k Hk. by apply elem_of_dom.
  - by rewrite !Hhandler, !Hbig.
Qed.

Lemma partial_batch_not_rolled_back_witness :
  exists text w2,
    uploadFilesHandler services (inl [sample_part; oversized_part; sample_part])
      sample_world
    = (HTTPError StatusRequestEntityTooLarge text, w2)
    /\ is_Some (bucket w2 !! "10325476-98ba-4cfe-8123-456789abcdef_a.txt").
Proof.
  pose (w1 := stored "10325476-98ba-4cfe-8123-456789abcdef_a.txt"
                sample_content (after_call (after_draw sample_world))).
  destruct (partial_batch_not_rolled_back sample_world w1 [sample_part]
              [sample_part]
              ["10325476-98ba-4cfe-8123-456789abcdef_a.txt"]
              StatusCreated "Files uploaded successfully" "big.bin"
              oversized_file oversized_content)
    as (_ & [text Hr] & Hb & Hk & _);
    [ reflexivity | discriminate | exact oversized_file_content
    | exact oversized_file_fits | rewrite oversized_content_length; lia
    | simpl; lia | reflexivity | ].
  exists text, (after_call (after_draw w1)). split; [exact Hr |].
  rewrite Hb. exact (proj1 (proj1 (Forall_cons _ _ _) Hk)).
Defined.

(** ** Fresh keys *)

Lemma uniqueFilename_inj (u1 u2 : uuid.UUID) (name1 name2 : string) :
  length u1 = 16%nat -> length u2 = 16%nat ->
  uniqueFilename u1 name1 = uniqueFilename u2 name2 ->
  u1 = u2 /\ filepath.Base name1 = filepath.Base name2.
Proof.
  intros H1 H2 H. unfold uniqueFilename in H.
  apply append_inj_len in H as [Hu H]; [| by rewrite !String_len].
  split; [by apply String_inj |]. by simplify_eq.
Qed.

(** C5.  A key is the text of the identifier drawn for the upload, an
    underscore, and the base of the client's file name, which is the name
    itself when it has no directory part; the identifier text has 36
    characters.  Keys made from distinct identifiers are distinct,
    whatever the two file names.  Two uploads of the same file under the
    same name in one request draw two identifiers; when these differ the
    request reports two distinct keys and each of them gives back the
    content. *)
Theorem fresh_keys_distinct :
  (forall u name,
     length u = 16%nat ->
     uniqueFilename u name = uuid.String_ u +:+ "_" +:+ filepath.Base name
     /\ len (uuid.String_ u) = 36%nat
     /\ (name <> "" -> filepath.Separator ∉ chars name ->
         uniqueFilename u name = uuid.String_ u +:+ "_" +:+ name))
  /\ (forall u1 u2 name1 name2,
        length u1 = 16%nat -> length u2 = 16%nat -> u1 <> u2 ->
        uniqueFilename u1 name1 <> uniqueFilename u2 name2)
  /\ (forall w name file data,
        name <> "" -> file_content file = Some data ->
        Z.of_nat (length data) <= maxFileSizeByte ->
        (32 <= length (entropy w))%nat -> outages w = [] ->
        next_uuid w <> next_uuid (after_draw w) ->
        let part := multipart.mkFileHeader name (inl file) in
        let k1 := uniqueFilename (next_uuid w) name in
        let k2 := uniqueFilename (next_uuid (after_draw w)) name in
        exists w',
          uploadFilesHandler services (inl [part; part]) w
          = (JSON_uploaded StatusCreated "Files uploaded successfully" [k1; k2],
             w')
          /\ k1 <> k2
          /\ (Store.content <$> bucket w' !! k1) = Some data
          /\ (Store.content <$> bucket w' !! k2) = Some data).
Proof.
  split; [| split].
  - intros u name Hu. split; [done |]. split; [by apply String_len |].
    intros Hn Hs. unfold uniqueFilename. by rewrite Base_plain_name.
  - intros u1 u2 name1 name2 H1 H2 Hne Heq.
    by apply uniqueFilename_inj in Heq as [? _].
  - intros w name file data Hn Hc Hle He Ho Hdiff part k1 k2.
    assert (k1 <> k2) as Hk.
    { intros Heq. apply uniqueFilename_inj in Heq as [? _];
        [done | apply version4_length ..]. }
    pose (w1 := stored k1 data (after_call (after_draw w))).
    assert (available w) as Ha by (unfold available, next_outage; run; by rewrite Ho).
    assert (outages w1 = []) as Ho1.
    { unfold w1, stored, after_call, next_outage. run. by rewrite Ho. }
    assert (available w1) as Ha1
      by (unfold available, next_outage; run; by rewrite Ho1).
    assert (entropy w1 = drop 16 (entropy w)) as He1.
    { unfold w1, stored, after_call, next_outage. run. by rewrite Ho. }
    assert (next_uuid w1 = next_uuid (after_draw w)) as Hu1.
    { unfold next_uuid. by rewrite He1. }
    exists (stored k2 data (after_call (after_draw w1))).
    split.
    + unfold uploadFilesHandler. simpl length.
      rewrite bool_decide_eq_false_2 by done. unfold part.
      rewrite (upload_loop_stored w name file data _ [] Hn Hc Hle);
        [| lia | done].
      fold k1. fold w1.
      rewrite (upload_loop_stored w1 name file data [] _ Hn Hc Hle);
        [| rewrite He1, length_drop; lia | done].
      by rewrite Hu1.
    + split; [done |]. unfold stored. simpl.
      rewrite !bucket_after_call. unfold w1, stored. simpl.
      rewrite !bucket_after_call. simpl. split.
      * rewrite lookup_insert_ne by done. by rewrite lookup_insert_eq.
      * by rewrite lookup_insert_eq.
Qed.

Lemma fresh_keys_distinct_witness :
  uniqueFilename (next_uuid sample_world) "a.txt"
  <> uniqueFilename (next_uuid (after_draw sample_world)) "b.txt"
  /\ exists k1 k2 w',
       uploadFilesHandler services (inl [sample_part; sample_part])
         sample_world
       = (JSON_uploaded StatusCreated "Files uploaded successfully" [k1; k2],
          w')
       /\ k1 <> k2.
Proof.
  destruct fresh_keys_distinct as (_ & Hne & Hup). split.
  - apply Hne; [reflexivity | reflexivity | vm_compute; discriminate].
  - destruct (Hup sample_world "a.txt" sample_file sample_content)
      as (w' & Hr & Hk & _);
      [ discriminate | reflexivity | vm_compute; discriminate | simpl; lia
      | reflexivity | vm_compute; discriminate | ].
    eexists _, _, w'. split; [exact Hr | exact Hk].
Defined.

(** ** Listing *)

Lemma collect_files_listing (contents : list s3.Object) :
  forall files,
  Forall (λ obj, is_Some (s3.LastModified obj)) contents ->
  collect_files contents files = Some (files ++ listing contents).
Proof.
  induction contents as [|obj contents IH]; intros files Hall; simpl.
  - by rewrite app_nil_r.
  - apply Forall_cons in Hall as [[t Ht] Hall]. unfold listing. simpl.
    unfold listed_entry at 1. rewrite Ht.
    destruct (s3.Key obj) as [key|]; simpl; [| by apply IH].
    destruct (HasSuffix key "/"); simpl; [by apply IH |].
    rewrite IH by done. by rewrite <- app_assoc.
Qed.

Lemma listing_cons (obj : s3.Object) (contents : list s3.Object) :
  listing (obj :: contents)
  = match listed_entry obj with
    | Some entry => entry :: listing contents
    | None => listing contents
    end.
Proof. done. Qed.

Lemma keys_cons (obj : s3.Object) (contents : list s3.Object) :
  omap s3.Key (obj :: contents)
  = match s3.Key obj with
    | Some key => key :: omap s3.Key contents
    | None => omap s3.Key contents
    end.
Proof. done. Qed.

Lemma listing_names (contents : list s3.Object) :
  Forall (λ obj, is_Some (s3.LastModified obj)) contents ->
  Filename <$> listing contents
  = filter (λ key, HasSuffix key "/" = false) (omap s3.Key contents).
Proof.
  induction contents as [|obj contents IH]; intros Hall; [done |].
  apply Forall_cons in Hall as [[t Ht] Hall].
  rewrite listing_cons, keys_cons. unfold listed_entry. rewrite Ht.
  destruct (s3.Key obj) as [key|]; cbn [mbind option_bind]; [| by apply IH].
  destruct (HasSuffix key "/") eqn:Hs.
  - rewrite filter_cons_False by (by rewrite Hs). by apply IH.
  - rewrite filter_cons_True by done. rewrite fmap_cons. by rewrite IH.
Qed.

Lemma listing_entries (contents : list s3.Object) :
  Forall (λ entry, Path entry = "/files/" +:+ Filename entry
                   /\ HasSuffix (Filename entry) "/" = false)
    (listing contents).
Proof.
  induction contents as [|obj contents IH]; [by apply Forall_nil |].
  rewrite listing_cons. unfold listed_entry.
  destruct (s3.Key obj) as [key|]; cbn [mbind option_bind]; [| done].
  destruct (HasSuffix key "/") eqn:Hs; [done |].
  destruct (s3.LastModified obj) as [t|]; cbn [mbind option_bind]; [| done].
  apply Forall_cons. by split.
Qed.

(** C6.  When the backend fails to list, the list handler answers 500.
    When it lists, the handler answers 200 with the listing: one entry for
    each object whose key does not end in "/", in the backend's order,
    the file name being the key and the path "/files/<key>"; no entry has a
    name that ends in "/".  The objects are taken to carry their
    modification time, as the listing contract of the backend promises. *)
Theorem list_handler_listing {St : Type} (svc : Collaborators St) (s s' : St) :
  (forall e,
     ListObjectsV2 svc s = (inr e, s') ->
     listFilesHandler svc s
     = (HTTPError StatusInternalServerError
          "Failed to list files from storage.", s'))
  /\ (forall result,
        ListObjectsV2 svc s = (inl result, s') ->
        Forall (λ obj, is_Some (s3.LastModified obj)) (s3.Contents result) ->
        listFilesHandler svc s
        = (JSON_files StatusOK (listing (s3.Contents result)), s')
        /\ Filename <$> listing (s3.Contents result)
           = filter (λ key, HasSuffix key "/" = false)
               (omap s3.Key (s3.Contents result))
        /\ Forall (λ entry, Path entry = "/files/" +:+ Filename entry
                            /\ ~ exists t, Filename entry = t +:+ "/")
             (listing (s3.Contents result))).
Proof.
  split.
  - intros e H. unfold listFilesHandler, mbind, M_bind. by rewrite H.
  - intros result H Hall. split; [| split].
    + unfold listFilesHandler, mbind, M_bind. rewrite H.
      by rewrite (collect_files_listing _ [] Hall).
    + by apply listing_names.
    + eapply Forall_impl; [apply listing_entries |].
      intros entry [Hp Hs]. split; [done |].
      rewrite <- HasSuffix_spec. by rewrite Hs.
Qed.

Lemma list_handler_listing_witness :
  listFilesHandler services listing_world
  = (JSON_files StatusOK
       [mkFileInfo "a.txt" "/files/a.txt" 3; mkFileInfo "b.txt" "/files/b.txt" 5],
     listing_world).
Proof.
  refine (proj1 (proj2 (list_handler_listing services listing_world
                          listing_world)
                   (s3.mkListObjectsV2Output
                      [s3.mkObject (Some "a.txt") (Some 3);
                       s3.mkObject (Some "b.txt") (Some 5);
                       s3.mkObject (Some "photos/") (Some 4)]) _ _)).
  - vm_compute. reflexivity.
  - repeat constructor; by eexists.
Defined.

(** ** Download and deletion *)

(** C7.  For the requested file name: when the backend answers with an
    [awserr.Error] of code [NoSuchKey] the get handler answers 404; on any
    other error it answers 500; on success it answers 200 and streams the
    bytes of the backend's body, with Content-Type and Content-Length taken
    from the backend's answer and a Content-Disposition
    [attachment; filename="<requested key>"], the name being the key asked
    for. *)
Theorem get_handler_responses {St : Type} (svc : Collaborators St)
    (filename : string) (s s' : St) :
  (forall message orig,
     GetObject svc filename s
     = (inr (awsError s3.ErrCodeNoSuchKey message orig), s') ->
     getFileHandler svc filename s
     = (HTTPError StatusNotFound ("File '" +:+ filename +:+ "' not found."),
        s'))
  /\ (forall e,
        GetObject svc filename s = (inr e, s') ->
        (forall message orig, e <> awsError s3.ErrCodeNoSuchKey message orig) ->
        getFileHandler svc filename s
        = (HTTPError StatusInternalServerError "Failed to retrieve file.", s'))
  /\ (forall result,
        GetObject svc filename s = (inl result, s') ->
        getFileHandler svc filename s
        = (Streamed
             [("Content-Type", default "" (s3.ContentType result));
              ("Content-Length", Itoa (default 0 (s3.ContentLength result)));
              ("Content-Disposition",
               "attachment; filename=" +:+ quote +:+ filename +:+ quote)]
             (io_Copy (s3.Body result)).1, s')
        /\ status (getFileHandler svc filename s).1 = StatusOK
        /\ (forall data,
              file_content (s3.Body result) = Some data ->
              (io_Copy (s3.Body result)).1 = data)).
Proof.
  split; [| split].
  - intros message orig H. unfold getFileHandler, mbind, M_bind.
    rewrite H. by rewrite bool_decide_eq_true_2.
  - intros e H Hne. unfold getFileHandler, mbind, M_bind. rewrite H.
    destruct e as [| | | msg | code message orig]; try done.
    case_bool_decide as Hc; [| done]. subst code. by destruct (Hne message orig).
  - intros result H.
    assert (getFileHandler svc filename s
            = (Streamed
                 [("Content-Type", default "" (s3.ContentType result));
                  ("Content-Length",
                   Itoa (default 0 (s3.ContentLength result)));
                  ("Content-Disposition",
                   "attachment; filename=" +:+ quote +:+ filename +:+ quote)]
                 (io_Copy (s3.Body result)).1, s')) as Hr.
    { unfold getFileHandler, mbind, M_bind. rewrite H.
      by destruct (io_Copy (s3.Body result)). }
    split; [done |]. split; [by rewrite Hr |].
    intros data Hd. by rewrite (io_Copy_content _ data Hd).
Qed.

Lemma get_handler_responses_witness :
  getFileHandler services "a.txt" listing_world
  = (Streamed
       [("Content-Type", "text/plain"); ("Content-Length", "5");
        ("Content-Disposition", "attachment; filename=" +:+ quote +:+ "a.txt"
                                +:+ quote)]
       sample_content, listing_world)
  /\ getFileHandler services "c.txt" listing_world
     = (HTTPError StatusNotFound "File 'c.txt' not found.", listing_world).
Proof.
  split.
  - refine (proj1 (proj2 (proj2 (get_handler_responses services "a.txt"
                                   listing_world listing_world))
                     (s3.mkGetObjectOutput [(sample_content, None)]
                        (Some "text/plain") (Some 5)) _)).
    vm_compute. reflexivity.
  - refine (proj1 (get_handler_responses services "c.txt" listing_world
                     listing_world)
              "The specified key does not exist." None _).
    vm_compute. reflexivity.
Defined.

(** C8.  The delete handler answers 204, without a body, whenever the
    backend's delete call succeeds and 500 when it fails.  On the store a
    reachable delete succeeds whether or not the key exists, leaving a
    bucket without the key (the same bucket when the key was not there),
    and a get of the key afterwards is answered 404. *)
Theorem delete_handler_responses :
  (forall St (svc : Collaborators St) filename s s',
     DeleteObject svc filename s = (None, s') ->
     deleteFileHandler svc filename s = (NoContent StatusNoContent, s'))
  /\ (forall St (svc : Collaborators St) filename s s' e,
        DeleteObject svc filename s = (Some e, s') ->
        deleteFileHandler svc filename s
        = (HTTPError StatusInternalServerError
             ("Could not delete file '" +:+ filename +:+ "'."), s'))
  /\ (forall w key,
        available w ->
        exists w',
          deleteFileHandler services key w = (NoContent StatusNoContent, w')
          /\ bucket w' = delete key (bucket w)
          /\ (bucket w !! key = None -> bucket w' = bucket w)
          /\ (available w' ->
              getFileHandler services key w'
              = (HTTPError StatusNotFound
                   ("File '" +:+ key +:+ "' not found."), after_call w'))).
Proof.
  split; [| split].
  - intros St svc filename s s' H.
    unfold deleteFileHandler, mbind, M_bind. by rewrite H.
  - intros St svc filename s s' e H.
    unfold deleteFileHandler, mbind, M_bind. by rewrite H.
  - intros w key Ha.
    pose (w' := mkWorld (delete key (bucket (after_call w)))
                  (outages (after_call w)) (entropy (after_call w))
                  (clock (after_call w))).
    exists w'.
    assert (bucket w' = delete key (bucket w)) as Hb
      by (unfold w'; simpl; by rewrite bucket_after_call).
    split.
    { unfold deleteFileHandler, mbind at 1, M_bind at 1. simpl.
      unfold deleteObject, mbind at 1, M_bind at 1.
      rewrite next_outage_eq, Ha. done. }
    split; [done |]. split.
    { intros Hk. rewrite Hb. by apply delete_id. }
    intros Ha'. apply getFileHandler_absent; [done |].
    rewrite Hb. apply lookup_delete_eq.
Qed.

Lemma delete_handler_responses_witness :
  exists w',
    deleteFileHandler services "a.txt" listing_world
    = (NoContent StatusNoContent, w')
    /\ status (getFileHandler services "a.txt" w').1 = StatusNotFound
    /\ status (deleteFileHandler services "a.txt" w').1 = StatusNoContent.
Proof.
  destruct delete_handler_responses as (_ & _ & H).
  destruct (H listing_world "a.txt") as (w' & Hd & _ & _ & Hg);
    [reflexivity |].
  exists w'. split; [exact Hd |]. split.
  - rewrite Hg; [reflexivity |].
    injection Hd as <-. reflexivity.
  - injection Hd as <-. reflexivity.
Defined.

(** ** Bad requests *)

(** [Part.FileName] is empty only for a part that has no [filename]. *)
Lemma Part_FileName_empty (p : Part) :
  Part_FileName p = "" <-> disposition_filename p = "".
Proof.
  unfold Part_FileName. case_bool_decide as H; [done |].
  split; [| done]. intros Hb. by destruct (Base_nonempty _ Hb).
Qed.

(** Every file part that form parsing hands over has a name. *)
Lemma form_File_named (field : string) (parts : list Part) :
  Forall (λ fh, multipart.Filename fh <> "") (form_File field parts).
Proof.
  unfold form_File. induction parts as [|p parts IH]; [constructor |].
  cbn [omap list_omap]. repeat case_bool_decide; try done.
  by apply Forall_cons.
Qed.

(** The field [files] holds no file part exactly when no part of the body
    is named [files] and has a file name. *)
Lemma form_File_nil (parts : list Part) :
  form_File "files" parts = []
  <-> Forall (λ p, disposition_name p <> "files" \/ disposition_filename p = "")
        parts.
Proof.
  unfold form_File. induction parts as [|p parts IH]; [done |].
  cbn [omap list_omap]. rewrite Forall_cons, <- IH.
  destruct (decide (disposition_name p = "")) as [Hn | Hn].
  { rewrite bool_decide_eq_true_2 by done. split; [| by intros [_ H]].
    intros H. split; [| done]. left. congruence. }
  rewrite (bool_decide_eq_false_2 (disposition_name p = "")) by done.
  destruct (decide (disposition_filename p = "")) as [Hf | Hf].
  { rewrite bool_decide_eq_true_2 by (by apply Part_FileName_empty).
    split; [| by intros [_ H]]. intros H. split; [by right | done]. }
  rewrite (bool_decide_eq_false_2 (Part_FileName p = ""))
    by (by rewrite Part_FileName_empty).
  case_bool_decide as Hfiles.
  - split; [done |]. by intros [[H | H] _].
  - split; [| by intros [_ H]]. intros H. split; [by left | done].
Qed.

(** Of four parts, only the one sent under [files] with a file name is a
    file of the form, under the base of its name. *)
Example form_File_sample :
  form_File "files"
    [nameless_field; named_field;
     mkPart "avatar" "b.txt" (inl sample_file);
     mkPart "" "c.txt" (inl sample_file)]
  = [multipart.mkFileHeader "a.txt" (inl sample_file)].
Proof. reflexivity. Qed.

Section BadRequest.

Context {St : Type} (svc : Collaborators St).

Lemma uploadFilesHandler_400 (form : list multipart.FileHeader + error)
    (s : St) :
  status (uploadFilesHandler svc form s).1 = StatusBadRequest
  <-> (exists e, form = inr e) \/ form = inl [].
Proof.
  destruct form as [files | e]; simpl.
  - destruct files as [|part files].
    + simpl. split; [by right | done].
    + rewrite bool_decide_eq_false_2 by done. split.
      * intros H.
        destruct (upload_loop_status svc (part :: files) [] s)
          as [H' | [H' | H']]; rewrite H' in H; done.
      * intros [[e He] | He]; done.
  - split; [| done]. intros _. left. by exists e.
Qed.

(** A pass over file parts that all have a name reports one key for each
    of them. *)
Lemma upload_loop_counts (files : list multipart.FileHeader) :
  forall (acc keys : list string) (s s' : St) (code : Z) (msg : string),
  Forall (λ fh, multipart.Filename fh <> "") files ->
  upload_loop svc files acc s = (JSON_uploaded code msg keys, s') ->
  length keys = (length acc + length files)%nat.
Proof.
  induction files as [|part files IH]; intros acc keys s s' code msg Hall H.
  - simpl in H. unfold mret, M_ret in H. simplify_eq. simpl. lia.
  - apply Forall_cons in Hall as [Hn Hall]. simpl in H.
    rewrite bool_decide_eq_false_2 in H by done.
    destruct (multipart.Open part) as [file | e]; [| by inversion H].
    unfold mbind, M_bind in H.
    destruct (uuid_New svc s) as [[u|] s1]; [| by inversion H].
    destruct (producer _ file io_Pipe) as [pr rd].
    destruct (Upload svc _ pr s1) as [[err|] s2].
    { by destruct (Contains (Error err) size_exceeded_suffix); inversion H. }
    apply IH in H; [| done]. rewrite H, length_app. simpl. lia.
Qed.

End BadRequest.

(** C9, as stated, fails.  A request whose two parts are sent under the
    field [files] without a file name: form parsing keeps such parts as
    form values, the field [files] holds no file part, and the request is
    answered 400 with no call to the backend, not 201 with an empty list
    of keys. *)
Lemma nameless_request_answered_400 :
  Forall (λ p, disposition_name p = "files" /\ disposition_filename p = "")
    [nameless_field; nameless_field]
  /\ uploadFilesHandler services
       (MultipartForm (inl [nameless_field; nameless_field])) sample_world
     = (HTTPError StatusBadRequest "No files provided for upload.",
        sample_world)
  /\ status (uploadFilesHandler services
               (MultipartForm (inl [nameless_field; nameless_field]))
               sample_world).1
     <> StatusCreated.
Proof.
  split; [by repeat constructor |]. split; [reflexivity | discriminate].
Qed.

(** C9, amended.  The upload handler answers 400 exactly when the multipart
    form could not be parsed or holds no file part under [files].  A part
    whose file name is empty or missing is not a file part: form parsing
    keeps it as a form value, so every file part the handler receives has a
    name and its check for an empty name never passes over one.  A request
    is therefore answered 400 exactly when its body is malformed or none of
    its parts is sent under [files] with a file name; a request whose parts
    are all empty-named is answered 400 and the outside world is not
    touched, and no request is answered 201 with an empty list of keys. *)
Theorem upload_bad_request {St : Type} (svc : Collaborators St) (s : St) :
  (forall form,
     status (uploadFilesHandler svc form s).1 = StatusBadRequest
     <-> (exists e, form = inr e) \/ form = inl [])
  /\ (forall parts,
        Forall (λ part, multipart.Filename part <> "")
          (form_File "files" parts))
  /\ (forall body,
        status (uploadFilesHandler svc (MultipartForm body) s).1
        = StatusBadRequest
        <-> (exists e, body = inr e)
            \/ exists parts,
                 body = inl parts
                 /\ Forall (λ p, disposition_name p <> "files"
                                 \/ disposition_filename p = "") parts)
  /\ (forall parts,
        Forall (λ p, disposition_filename p = "") parts ->
        uploadFilesHandler svc (MultipartForm (inl parts)) s
        = (HTTPError StatusBadRequest "No files provided for upload.", s))
  /\ (forall body code msg keys s',
        uploadFilesHandler svc (MultipartForm body) s
        = (JSON_uploaded code msg keys, s') ->
        keys <> []).
Proof.
  split; [| split; [| split; [| split]]].
  - intros form. apply uploadFilesHandler_400.
  - intros parts. apply form_File_named.
  - intros body. rewrite uploadFilesHandler_400. split.
    + intros [[e He] | He].
      * destruct body as [parts | e']; [done |]. left. by exists e'.
      * destruct body as [parts | e']; [| done]. right. exists parts.
        split; [done |]. apply form_File_nil. simpl in He. congruence.
    + intros [[e ->] | (parts & -> & Hall)].
      * left. by exists e.
      * right. simpl. f_equal. by apply form_File_nil.
  - intros parts Hall. cbn [MultipartForm].
    assert (form_File "files" parts = []) as ->; [| done].
    apply form_File_nil. eapply Forall_impl; [exact Hall |].
    intros p Hp. by right.
  - intros [parts | e] code msg keys s' H; [| by inversion H].
    unfold MultipartForm, uploadFilesHandler in H.
    pose proof (form_File_named "files" parts) as Hnamed.
    destruct (form_File "files" parts) as [|part files]; [by inversion H |].
    rewrite bool_decide_eq_false_2 in H by done.
    apply upload_loop_counts in H; [| done].
    intros ->. simpl in H. lia.
Qed.

Lemma upload_bad_request_witness :
  uploadFilesHandler services
    (MultipartForm (inl [nameless_field; nameless_field])) sample_world
  = (HTTPError StatusBadRequest "No files provided for upload.", sample_world)
  /\ status (uploadFilesHandler services
               (MultipartForm (inl [nameless_field; named_field]))
               sample_world).1
     <> StatusBadRequest.
Proof.
  destruct (upload_bad_request services sample_world)
    as (_ & _ & H400 & Hall & _).
  split.
  - apply Hall. by repeat constructor.
  - intros H. apply H400 in H as [[e He] | (parts & Hp & Hn)]; [done |].
    injection Hp as <-.
    apply Forall_cons in Hn as [_ Hn]. apply Forall_cons in Hn as [Hn _].
    by destruct Hn.
Defined.

(** ** Keys and the path separator *)

Lemma HasSuffix_separator_elem (s : string) :
  HasSuffix s "/" = true -> filepath.Separator ∈ chars s.
Proof.
  intros [t ->]%HasSuffix_spec. rewrite chars_app, elem_of_app. right.
  simpl. by apply list_elem_of_singleton.
Qed.

(** For a file name that is not made of separators only, the key holds no
    separator, so the listing keeps the object. *)
Lemma uniqueFilename_no_separator (u : uuid.UUID) (name : string) :
  ~ (name <> "" /\ Forall (λ c, c = filepath.Separator) (chars name)) ->
  (filepath.Separator ∉ chars (uniqueFilename u name))
  /\ HasSuffix (uniqueFilename u name) "/" = false.
Proof.
  intros Hname.
  assert (filepath.Separator ∉ chars (uniqueFilename u name)) as Hno.
  { unfold uniqueFilename. rewrite !chars_app, !not_elem_of_app.
    split; [apply String_no_separator |]. split.
    - simpl. by rewrite list_elem_of_singleton.
    - destruct (Base_cases name) as [Hb | Hb]; [| done].
      by apply Base_separator in Hb. }
  split; [done |].
  destruct (HasSuffix (uniqueFilename u name) "/") eqn:Hs; [| done].
  by apply HasSuffix_separator_elem in Hs.
Qed.

(** For a file name made of separators only, the key ends in the
    separator. *)
Lemma uniqueFilename_separator (u : uuid.UUID) (name : string) :
  name <> "" -> Forall (λ c, c = filepath.Separator) (chars name) ->
  uniqueFilename u name = uuid.String_ u +:+ "_/"
  /\ HasSuffix (uniqueFilename u name) "/" = true.
Proof.
  intros Hn Hall.
  assert (filepath.Base name = "/") as Hb by (by apply Base_separator).
  unfold uniqueFilename. rewrite Hb. split; [done |].
  apply HasSuffix_spec. exists (uuid.String_ u +:+ "_").
  by rewrite app_assoc_s.
Qed.

Lemma keys_of_objects (l : list (string * StoredObject)) :
  omap s3.Key
    ((λ kv : string * StoredObject,
        s3.mkObject (Some kv.1) (Some (last_modified kv.2))) <$> l)
  = l.*1.
Proof.
  induction l as [|kv l IH]; [done |].
  rewrite !fmap_cons, keys_cons. simpl. by rewrite IH.
Qed.

(** On the store, the listing shows exactly the keys of the bucket that do
    not end in the separator. *)
Lemma store_listing (w : World) :
  available w ->
  exists files,
    listFilesHandler services w = (JSON_files StatusOK files, after_call w)
    /\ forall key,
         key ∈ Filename <$> files
         <-> is_Some (bucket w !! key) /\ HasSuffix key "/" = false.
Proof.
  intros Ha.
  pose (contents :=
          (λ kv : string * StoredObject,
             s3.mkObject (Some kv.1) (Some (last_modified kv.2)))
            <$> map_to_list (bucket w)).
  assert (ListObjectsV2 services w
          = (inl (s3.mkListObjectsV2Output contents), after_call w)) as Hl.
  { simpl. unfold listObjects, mbind at 1, M_bind at 1.
    rewrite next_outage_eq, Ha. run. by rewrite bucket_after_call. }
  assert (Forall (λ obj, is_Some (s3.LastModified obj)) contents) as Hall.
  { unfold contents. apply Forall_fmap, Forall_forall. intros kv _. simpl.
    by eexists. }
  assert (listFilesHandler services w
          = (JSON_files StatusOK (listing contents), after_call w)) as Hr.
  { unfold listFilesHandler, mbind, M_bind. rewrite Hl. simpl.
    by rewrite (collect_files_listing _ [] Hall). }
  pose proof (listing_names contents Hall) as Hnames.
  exists (listing contents). split; [done |]. intros key.
  rewrite Hnames, list_elem_of_filter.
  unfold contents. rewrite keys_of_objects.
  rewrite list_elem_of_fmap. split.
  - intros [Hs ([k obj] & -> & Hin)]. split; [| done].
    apply elem_of_map_to_list in Hin. by eexists.
  - intros [[obj Hobj] Hs]. split; [done |]. exists (key, obj).
    split; [done |]. by apply elem_of_map_to_list.
Qed.

(** After an upload that succeeded, the listing shows the new key exactly
    when the client's file name is not made of separators only. *)
Lemma uploaded_key_listed (w : World) (name : string) (data : list byte) :
  name <> "" ->
  let key := uniqueFilename (next_uuid w) name in
  let w' := stored key data (after_call (after_draw w)) in
  available w' ->
  exists files,
    listFilesHandler services w' = (JSON_files StatusOK files, after_call w')
    /\ (key ∈ Filename <$> files
        <-> ~ Forall (λ c, c = filepath.Separator) (chars name)).
Proof.
  intros Hn key w' Ha.
  destruct (store_listing w' Ha) as (files & Hr & Hin).
  exists files. split; [done |]. rewrite Hin.
  assert (is_Some (bucket w' !! key)) as Hk.
  { unfold w', stored. simpl. rewrite lookup_insert_eq. by eexists. }
  split.
  - intros [_ Hs] Hall.
    destruct (uniqueFilename_separator (next_uuid w) name Hn Hall) as [_ Ht].
    fold key in Ht. congruence.
  - intros Hall. split; [done |].
    apply uniqueFilename_no_separator. tauto.
Qed.

(** C10, at the failing input.  A part whose file name is "/" is uploaded
    and answered 201 under a key that ends in "/"; the object is in the
    bucket, and the list handler, asked next, leaves it out. *)
Theorem separator_name_hidden_from_list :
  let key := "10325476-98ba-4cfe-8123-456789abcdef_/" in
  let w' := stored key sample_content (after_call (after_draw sample_world)) in
  filepath.Base "/" = "/"
  /\ uploadFilesHandler services (inl [separator_part]) sample_world
     = (JSON_uploaded StatusCreated "Files uploaded successfully" [key], w')
  /\ HasSuffix key "/" = true
  /\ (Store.content <$> bucket w' !! key) = Some sample_content
  /\ listFilesHandler services w' = (JSON_files StatusOK [], w').
Proof. repeat split; vm_compute; reflexivity. Qed.

(** * Further properties *)

(** ** The producer, whatever the reader does *)

Lemma bytes_of_app (seen more : Reader) :
  bytes_of (seen ++ more) = bytes_of seen ++ bytes_of more.
Proof. unfold bytes_of. by rewrite fmap_app, concat_app. Qed.

Lemma p_data_close (p : Pipe) (err : option error) :
  p_data (pw_CloseWithError p err) = p_data p.
Proof. unfold pw_CloseWithError. by destruct (p_werr p). Qed.

(** The loop only ever appends, in their order, bytes it has read. *)
Lemma copy_loop_prefix (name : string) (file : Reader) :
  forall (pw : Pipe) (cs : Z),
  exists written,
    written `prefix_of` bytes_of file
    /\ p_data (copy_loop name file cs pw).1 = p_data pw ++ written.
Proof.
  induction file as [|[chunk e] file IH]; intros pw cs.
  { exists []. split; [done |]. simpl. by rewrite app_nil_r. }
  rewrite bytes_of_cons.
  assert (exists written,
            written `prefix_of` chunk ++ bytes_of file
            /\ p_data pw = p_data pw ++ written) as Hstop.
  { exists []. split; [apply prefix_nil | by rewrite app_nil_r]. }
  assert (forall pw' c,
            p_data pw' = p_data pw ++ chunk ->
            exists written,
              written `prefix_of` chunk ++ bytes_of file
              /\ p_data (match after_chunk e c pw' with
                         | Continue c' p => copy_loop name file c' p
                         | Leave p => (p, file)
                         end).1 = p_data pw ++ written) as Hafter.
  { intros pw' c Hpw'. destruct e as [e|]; simpl.
    - exists chunk. split; [by apply prefix_app_r |].
      destruct (is_EOF e); simpl; by rewrite ?p_data_close.
    - destruct (IH pw' c) as (rest & Hrest & Hdata).
      exists (chunk ++ rest). split; [by apply prefix_app |].
      by rewrite Hdata, Hpw', app_assoc. }
  simpl. destruct (0 <? Z.of_nat (length chunk)) eqn:Hn.
  - destruct (maxFileSizeByte <? add64 cs (Z.of_nat (length chunk))).
    { simpl. by rewrite p_data_close. }
    unfold pw_Write.
    destruct (p_werr pw) as [we|] eqn:Hwe.
    { simpl. by rewrite p_data_close. }
    destruct (p_rerr pw) as [re|] eqn:Hre.
    { simpl. by rewrite p_data_close. }
    by apply Hafter.
  - apply Hafter. apply Z.ltb_ge in Hn.
    destruct chunk; [by rewrite app_nil_r | simpl in Hn; lia].
Qed.

(** X1.  Whatever the client's stream does (short reads, empty reads, an
    error at any point, more data than allowed), what the producer has put
    into the pipe when it ends is a prefix of the bytes the stream
    delivered, in their order, and is at most the ceiling of 50 MiB long.
    The reads are taken to respect the 32 KiB buffer. *)
Theorem pipe_holds_bounded_prefix (name : string) (file : Reader) :
  fits_buffer file ->
  p_data (producer name file io_Pipe).1 `prefix_of` bytes_of file
  /\ Z.of_nat (length (p_data (producer name file io_Pipe).1))
     <= maxFileSizeByte.
Proof.
  intros Hfit. split; [| by apply producer_bounded].
  unfold producer.
  destruct (copy_loop_prefix name file io_Pipe 0) as (written & Hpre & Hdata).
  destruct (copy_loop name file 0 io_Pipe) as [pw rest]. simpl in *.
  unfold pw_Close. by rewrite p_data_close, Hdata.
Qed.

Lemma pipe_holds_bounded_prefix_witness :
  p_data (producer "big.bin" oversized_file io_Pipe).1
    `prefix_of` bytes_of oversized_file
  /\ Z.of_nat (length (p_data (producer "big.bin" oversized_file io_Pipe).1))
     <= maxFileSizeByte.
Proof.
  apply pipe_holds_bounded_prefix. exact oversized_file_fits.
Defined.

(** How the loop can end: with the pipe still open, having read the file
    to its end and written all of it within the ceiling; or with the pipe
    closed by an error that is not [io.EOF]. *)
Lemma copy_loop_ending (name : string) (file : Reader) :
  forall (data : list byte) (cs : Z),
  fits_buffer file -> 0 <= cs <= maxFileSizeByte ->
  match p_werr (copy_loop name file cs (mkPipe data None None)).1 with
  | None =>
      exists content,
        file_content file = Some content
        /\ p_data (copy_loop name file cs (mkPipe data None None)).1
           = data ++ content
        /\ cs + Z.of_nat (length content) <= maxFileSizeByte
  | Some e => is_EOF e = false
  end.
Proof.
  pose proof maxFileSizeByte_eq as Hmax.
  induction file as [|[chunk e] file IH]; intros data cs Hfit Hcs.
  { simpl. exists []. rewrite app_nil_r. split; [done |]. split; [done | simpl; lia]. }
  apply Forall_cons in Hfit as [Hb Hfit]. simpl in Hb. unfold bufSize in Hb.
  assert (forall c,
            c = cs + Z.of_nat (length chunk) -> c <= maxFileSizeByte ->
            match p_werr (match after_chunk e c (mkPipe (data ++ chunk) None None)
                          with
                          | Continue c' p => copy_loop name file c' p
                          | Leave p => (p, file)
                          end).1 with
            | None =>
                exists content,
                  file_content ((chunk, e) :: file) = Some content
                  /\ p_data (match after_chunk e c
                                     (mkPipe (data ++ chunk) None None) with
                             | Continue c' p => copy_loop name file c' p
                             | Leave p => (p, file)
                             end).1 = data ++ content
                  /\ cs + Z.of_nat (length content) <= maxFileSizeByte
            | Some err => is_EOF err = false
            end) as Hafter.
  { intros c -> Hc. destruct e as [e|]; simpl.
    - destruct (is_EOF e) eqn:He; simpl; [| done].
      exists chunk. split; [done |]. split; [done | lia].
    - specialize (IH (data ++ chunk) (cs + Z.of_nat (length chunk)) Hfit).
      destruct (p_werr (copy_loop name file _ _).1); [apply IH; lia |].
      destruct IH as (content & Hcontent & Hdata & Hle); [lia |].
      exists (chunk ++ content). rewrite Hcontent. simpl.
      split; [done |]. rewrite Hdata, length_app.
      split; [by rewrite app_assoc | lia]. }
  simpl. destruct (0 <? Z.of_nat (length chunk)) eqn:Hn.
  - unfold add64. rewrite wrap64_small by lia.
    destruct (maxFileSizeByte <? cs + Z.of_nat (length chunk)) eqn:Hover;
      [done |].
    apply Z.ltb_ge in Hover. simpl. by apply Hafter.
  - apply Z.ltb_ge in Hn. destruct chunk; [| simpl in Hn; lia].
    specialize (Hafter cs). rewrite app_nil_r in Hafter.
    apply Hafter; simpl; lia.
Qed.

(** A normal end of the pipe means the whole file went through, and it
    is within the ceiling. *)
Lemma producer_normal_end (name : string) (file : Reader) :
  fits_buffer file ->
  p_werr (producer name file io_Pipe).1 = Some io_EOF ->
  exists content,
    file_content file = Some content
    /\ p_data (producer name file io_Pipe).1 = content
    /\ Z.of_nat (length content) <= maxFileSizeByte.
Proof.
  intros Hfit.
  assert (0 <= 0 <= maxFileSizeByte) as H0 by (rewrite maxFileSizeByte_eq; lia).
  pose proof (copy_loop_ending name file [] 0 Hfit H0) as Hend.
  unfold producer, io_Pipe in *.
  destruct (copy_loop name file 0 (mkPipe [] None None)) as [pw rest].
  destruct pw as [d [e|] r]; simpl in *.
  - by intros [= ->].
  - intros _. destruct Hend as (content & Hc & Hd & Hle).
    exists content. split; [done |]. split; [done | lia].
Qed.

(** X2.  The pipe ends normally, with [io.EOF] for the upload to see,
    exactly when the client's stream was read to its end without error and
    its content is within the ceiling of 50 MiB; what the pipe holds then
    is the whole content.  A truncated or broken stream therefore never
    looks complete to the put operation.  The reads are taken to respect
    the 32 KiB buffer. *)
Theorem pipe_ends_normally_iff_complete (name : string) (file : Reader) :
  fits_buffer file ->
  (p_werr (producer name file io_Pipe).1 = Some io_EOF
   <-> exists content,
         file_content file = Some content
         /\ Z.of_nat (length content) <= maxFileSizeByte)
  /\ (p_werr (producer name file io_Pipe).1 = Some io_EOF ->
      file_content file = Some (p_data (producer name file io_Pipe).1)).
Proof.
  intros Hfit. split; [split |].
  - intros H.
    destruct (producer_normal_end name file Hfit H) as (content & Hc & _ & Hle).
    eauto.
  - intros (content & Hc & Hle).
    destruct (producer_within name file content Hc Hle) as [rest ->]. done.
  - intros H.
    destruct (producer_normal_end name file Hfit H) as (content & Hc & <- & _).
    done.
Qed.

Lemma ceiling_file_fits : fits_buffer ceiling_file.
Proof.
  unfold fits_buffer, ceiling_file. apply Forall_app. split.
  - apply Forall_replicate. cbn [fst]. rewrite full_chunk_length. lia.
  - apply Forall_singleton. cbn [fst]. rewrite full_chunk_length. lia.
Qed.

Lemma pipe_ends_normally_iff_complete_witness :
  p_werr (producer "a.txt" ceiling_file io_Pipe).1 = Some io_EOF
  /\ p_werr (producer "big.bin" oversized_file io_Pipe).1 <> Some io_EOF.
Proof.
  split.
  - apply (proj1 (pipe_ends_normally_iff_complete "a.txt" ceiling_file
                    ceiling_file_fits)).
    exists ceiling_content.
    split; [exact ceiling_file_content | rewrite ceiling_content_length; lia].
  - intros H.
    apply (proj1 (pipe_ends_normally_iff_complete "big.bin" oversized_file
                    oversized_file_fits)) in H.
    destruct H as (content & Hc & Hle).
    rewrite oversized_file_content in Hc. injection Hc as <-.
    rewrite oversized_content_length in Hle. lia.
Defined.

Lemma copy_loop_clean (name : string) (seen more : Reader) :
  forall (data : list byte) (cs : Z),
  clean seen -> 0 <= cs ->
  cs + Z.of_nat (length (bytes_of seen)) <= maxFileSizeByte ->
  copy_loop name (seen ++ more) cs (mkPipe data None None)
  = copy_loop name more (cs + Z.of_nat (length (bytes_of seen)))
      (mkPipe (data ++ bytes_of seen) None None).
Proof.
  pose proof maxFileSizeByte_eq as Hmax.
  induction seen as [|[chunk e] seen IH]; intros data cs Hclean Hcs Hle.
  { simpl. unfold bytes_of. simpl. by rewrite app_nil_r, Z.add_0_r. }
  apply Forall_cons in Hclean as [He Hclean]. simpl in He. subst e.
  rewrite bytes_of_cons, length_app in *.
  cbn [app copy_loop iteration]. cbv zeta.
  destruct (0 <? Z.of_nat (length chunk)) eqn:Hn.
  - unfold add64. rewrite wrap64_small by lia.
    rewrite (proj2 (Z.ltb_ge _ _)) by lia. simpl.
    rewrite IH by (done || lia). f_equal; [lia | by rewrite app_assoc].
  - apply Z.ltb_ge in Hn. destruct chunk; [| simpl in Hn; lia]. simpl.
    rewrite IH by (done || simpl in *; lia). done.
Qed.

(** X3.  A client stream that breaks with an error after some clean
    reads: the bytes that came with the error are still forwarded, then
    the pipe is closed with that very error and nothing more is read, as
    long as these bytes stay within the ceiling; when they would take the
    counter past it, they are dropped and the size error is reported
    instead.  On the store the put then fails with the stream's error as
    its cause. *)
Theorem broken_stream_aborts_pipe (name : string) (seen rest : Reader)
    (chunk : list byte) (e : error) :
  clean seen -> is_EOF e = false ->
  Z.of_nat (length (bytes_of seen)) <= maxFileSizeByte ->
  Z.of_nat (length chunk) <= bufSize ->
  let file := seen ++ (chunk, Some e) :: rest in
  (Z.of_nat (length (bytes_of seen)) + Z.of_nat (length chunk)
   <= maxFileSizeByte ->
   producer name file io_Pipe
   = (mkPipe (bytes_of seen ++ chunk) (Some e) None, rest)
   /\ forall key w,
        available w ->
        putObject key (producer name file io_Pipe).1 w
        = (Some (awsError "ReadRequestBody" "read upload data failed"
                   (Some e)), after_call w))
  /\ (maxFileSizeByte
      < Z.of_nat (length (bytes_of seen)) + Z.of_nat (length chunk) ->
      producer name file io_Pipe
      = (mkPipe (bytes_of seen) (Some (size_exceeded_error name)) None, rest)).
Proof.
  pose proof maxFileSizeByte_eq as Hmax.
  intros Hclean He Hseen Hb file. unfold bufSize in Hb.
  assert (copy_loop name file 0 io_Pipe
          = copy_loop name ((chunk, Some e) :: rest)
              (Z.of_nat (length (bytes_of seen)))
              (mkPipe (bytes_of seen) None None)) as Hloop.
  { unfold file, io_Pipe. by rewrite copy_loop_clean by (done || lia). }
  split.
  - intros Hle.
    assert (producer name file io_Pipe
            = (mkPipe (bytes_of seen ++ chunk) (Some e) None, rest)) as Hp.
    { unfold producer. rewrite Hloop. simpl.
      destruct (0 <? Z.of_nat (length chunk)) eqn:Hn.
      - unfold add64. rewrite wrap64_small by lia.
        rewrite (proj2 (Z.ltb_ge _ _)) by lia. simpl. by rewrite He.
      - apply Z.ltb_ge in Hn. destruct chunk; [| simpl in Hn; lia].
        simpl. rewrite He. by rewrite app_nil_r. }
    split; [done |]. intros key w Ha.
    apply putObject_aborted; [done | by rewrite Hp | done].
  - intros Hgt. unfold producer. rewrite Hloop. simpl.
    rewrite (proj2 (Z.ltb_lt 0 _)) by lia.
    unfold add64. rewrite wrap64_small by lia.
    by rewrite (proj2 (Z.ltb_lt _ _)) by lia.
Qed.

Lemma broken_stream_aborts_pipe_witness :
  producer "a.txt" torn_file io_Pipe
  = (mkPipe ["h"; "e"; "l"; "l"; "o"; "!"; "!"]%byte
       (Some (errorString "connection reset by peer")) None,
     [(["?"]%byte, None)]).
Proof.
  refine (proj1 (proj1 (broken_stream_aborts_pipe "a.txt"
                          [(["h"; "e"]%byte, None);
                           (["l"; "l"; "o"]%byte, None)]
                          [(["?"]%byte, None)] ["!"; "!"]%byte
                          (errorString "connection reset by peer")
                          _ _ _ _) _)).
  - repeat constructor.
  - reflexivity.
  - vm_compute. discriminate.
  - vm_compute. discriminate.
  - vm_compute. discriminate.
Defined.

(** ** Downloads that break *)

Lemma io_Copy_clean (seen more : Reader) :
  clean seen ->
  io_Copy (seen ++ more)
  = (bytes_of seen ++ (io_Copy more).1, (io_Copy more).2).
Proof.
  induction seen as [|[chunk e] seen IH]; intros Hclean.
  { simpl. by destruct (io_Copy more). }
  apply Forall_cons in Hclean as [He Hclean]. simpl in He. subst e.
  cbn [app io_Copy]. rewrite IH by done. rewrite bytes_of_cons.
  by rewrite app_assoc.
Qed.

(** X4.  When the backend's body breaks in the middle of a download, the
    get handler does not turn the failure into an error response: the
    answer stays 200 with the headers taken from the backend, the
    announced Content-Length included, and the body holds the bytes read
    up to the failure, those that came with the error included. *)
Theorem download_cut_short {St : Type} (svc : Collaborators St)
    (filename : string) (s s' : St) (result : s3.GetObjectOutput)
    (seen rest : Reader) (chunk : list byte) (e : error) :
  GetObject svc filename s = (inl result, s') ->
  s3.Body result = seen ++ (chunk, Some e) :: rest ->
  clean seen -> is_EOF e = false ->
  getFileHandler svc filename s
  = (Streamed
       [("Content-Type", default "" (s3.ContentType result));
        ("Content-Length", Itoa (default 0 (s3.ContentLength result)));
        ("Content-Disposition",
         "attachment; filename=" +:+ quote +:+ filename +:+ quote)]
       (bytes_of seen ++ chunk), s')
  /\ status (getFileHandler svc filename s).1 = StatusOK
  /\ (io_Copy (s3.Body result)).2 = Some e.
Proof.
  intros Hget Hbody Hclean He.
  assert (io_Copy (s3.Body result) = (bytes_of seen ++ chunk, Some e)) as Hcopy.
  { rewrite Hbody, io_Copy_clean by done. simpl. by rewrite He. }
  assert (getFileHandler svc filename s
          = (Streamed
               [("Content-Type", default "" (s3.ContentType result));
                ("Content-Length", Itoa (default 0 (s3.ContentLength result)));
                ("Content-Disposition",
                 "attachment; filename=" +:+ quote +:+ filename +:+ quote)]
               (bytes_of seen ++ chunk), s')) as Hr.
  { unfold getFileHandler, mbind, M_bind. by rewrite Hget, Hcopy. }
  split; [done |]. split; [by rewrite Hr | by rewrite Hcopy].
Qed.

Lemma download_cut_short_witness :
  getFileHandler
    (canned (s3.mkGetObjectOutput torn_file (Some "text/plain") (Some 12)) [])
    "a.txt" tt
  = (Streamed
       [("Content-Type", "text/plain"); ("Content-Length", "12");
        ("Content-Disposition",
         "attachment; filename=" +:+ quote +:+ "a.txt" +:+ quote)]
       ["h"; "e"; "l"; "l"; "o"; "!"; "!"]%byte, tt).
Proof.
  refine (proj1 (download_cut_short
                   (canned (s3.mkGetObjectOutput torn_file (Some "text/plain")
                              (Some 12)) [])
                   "a.txt" tt tt
                   (s3.mkGetObjectOutput torn_file (Some "text/plain")
                      (Some 12))
                   [(["h"; "e"]%byte, None); (["l"; "l"; "o"]%byte, None)]
                   [(["?"]%byte, None)] ["!"; "!"]%byte
                   (errorString "connection reset by peer") _ _ _ _)).
  - reflexivity.
  - reflexivity.
  - repeat constructor.
  - reflexivity.
Defined.

(** ** Listings that cannot be built *)

(** The loop gives up exactly at an object it would list that has no
    modification time. *)
Lemma collect_files_panics (contents : list s3.Object) :
  forall files,
  collect_files contents files = None
  <-> Exists (λ obj, exists key,
                s3.Key obj = Some key /\ HasSuffix key "/" = false
                /\ s3.LastModified obj = None) contents.
Proof.
  induction contents as [|obj contents IH]; intros files; simpl.
  { split; [done | by intros ?%Exists_nil]. }
  rewrite Exists_cons.
  destruct (s3.Key obj) as [key|] eqn:Hk; simpl.
  - destruct (HasSuffix key "/") eqn:Hs; simpl.
    + rewrite IH. split; [by right |].
      intros [(k & [= <-] & Hs' & _) | H]; [congruence | done].
    + destruct (s3.LastModified obj) as [t|] eqn:Ht.
      * rewrite IH. split; [by right |].
        intros [(k & _ & _ & Hn) | H]; [done | done].
      * split; [| done]. intros _. left. by exists key.
  - rewrite IH. split; [by right |].
    intros [(k & Hn & _) | H]; [done | done].
Qed.

Lemma collect_files_some (contents : list s3.Object) :
  forall files result,
  collect_files contents files = Some result ->
  result = files ++ listing contents.
Proof.
  induction contents as [|obj contents IH]; intros files result H; simpl in H.
  { simplify_eq. by rewrite app_nil_r. }
  rewrite listing_cons. unfold listed_entry.
  destruct (s3.Key obj) as [key|]; cbn [mbind option_bind]; [| by apply IH].
  destruct (HasSuffix key "/"); simpl in H; [by apply IH |].
  destruct (s3.LastModified obj) as [t|]; [| done].
  cbn [mbind option_bind]. apply IH in H. by rewrite <- app_assoc in H.
Qed.

(** X5.  The list handler passes over objects without a key and over
    directory markers whatever else they lack, but it dereferences the
    modification time of every object it lists: it panics, which the server
    answers 500, exactly when some object with a key that does not end in
    "/" has no modification time, and otherwise answers 200 with the
    listing. *)
Theorem listing_panics_iff {St : Type} (svc : Collaborators St) (s s' : St)
    (result : s3.ListObjectsV2Output) :
  ListObjectsV2 svc s = (inl result, s') ->
  (listFilesHandler svc s = (Panicked, s')
   <-> Exists (λ obj, exists key,
                 s3.Key obj = Some key /\ HasSuffix key "/" = false
                 /\ s3.LastModified obj = None) (s3.Contents result))
  /\ (listFilesHandler svc s
      = (JSON_files StatusOK (listing (s3.Contents result)), s')
      <-> ~ Exists (λ obj, exists key,
                      s3.Key obj = Some key /\ HasSuffix key "/" = false
                      /\ s3.LastModified obj = None) (s3.Contents result)).
Proof.
  intros Hl. rewrite <- collect_files_panics with (files := []).
  unfold listFilesHandler, mbind, M_bind. rewrite Hl.
  destruct (collect_files (s3.Contents result) []) as [files|] eqn:Hc.
  - apply collect_files_some in Hc. simpl in Hc. subst files.
    split; split; try done; by intros [= ?].
  - split; split; try done; by intros _ ?.
Qed.

Lemma listing_panics_iff_witness :
  listFilesHandler
    (canned (s3.mkGetObjectOutput [] None None)
       [s3.mkObject None None; s3.mkObject (Some "photos/") None;
        s3.mkObject (Some "a.txt") (Some 3)]) tt
  = (JSON_files StatusOK [mkFileInfo "a.txt" "/files/a.txt" 3], tt)
  /\ listFilesHandler
       (canned (s3.mkGetObjectOutput [] None None)
          [s3.mkObject (Some "a.txt") None]) tt
     = (Panicked, tt).
Proof.
  split.
  - apply (proj2 (listing_panics_iff
                    (canned (s3.mkGetObjectOutput [] None None)
                       [s3.mkObject None None;
                        s3.mkObject (Some "photos/") None;
                        s3.mkObject (Some "a.txt") (Some 3)])
                    tt tt _ eq_refl)).
    rewrite <- (collect_files_panics _ []). vm_compute. discriminate.
  - apply (proj1 (listing_panics_iff
                    (canned (s3.mkGetObjectOutput [] None None)
                       [s3.mkObject (Some "a.txt") None])
                    tt tt _ eq_refl)).
    apply Exists_cons. left. by exists "a.txt".
Defined.

(** ** Requests of several files *)

(** One part, then the rest: the rest is handled, from the state the part
    left, exactly when the part did not end the request. *)
Lemma upload_loop_cons {St : Type} (svc : Collaborators St)
    (part : multipart.FileHeader) (files : list multipart.FileHeader)
    (acc : list string) (s : St) :
  match upload_loop svc [part] acc s with
  | (JSON_uploaded _ _ keys, s1) =>
      upload_loop svc (part :: files) acc s = upload_loop svc files keys s1
  | (r, s1) => upload_loop svc (part :: files) acc s = (r, s1)
  end.
Proof.
  simpl. case_bool_decide; [done |].
  destruct (multipart.Open part) as [file | e]; [| done].
  unfold mbind, M_bind.
  destruct (uuid_New svc s) as [[u|] s1]; [| done].
  destruct (producer _ file io_Pipe) as [pr rd].
  destruct (Upload svc _ pr s1) as [[err|] s2]; [| done].
  by destruct (Contains (Error err) size_exceeded_suffix).
Qed.

(** X6.  Whatever makes a part fail (it cannot be opened, no identifier
    can be drawn, its stream breaks, it is too large, the backend refuses
    it), the request ends there: when the parts before it were uploaded and
    the part ends in anything but continuation, the response and the state
    of the outside world are those of that part, and the parts after it
    are never looked at. *)
Theorem first_failure_ends_request {St : Type} (svc : Collaborators St)
    (pre post : list multipart.FileHeader) (part : multipart.FileHeader)
    (keys : list string) (code : Z) (msg : string) (s s1 s2 : St)
    (r : Response) :
  upload_loop svc pre [] s = (JSON_uploaded code msg keys, s1) ->
  upload_loop svc [part] keys s1 = (r, s2) ->
  (forall code' msg' keys', r <> JSON_uploaded code' msg' keys') ->
  uploadFilesHandler svc (inl (pre ++ part :: post)) s = (r, s2).
Proof.
  intros Hpre Hpart Hr. unfold uploadFilesHandler.
  rewrite bool_decide_eq_false_2 by (rewrite length_app; simpl; lia).
  rewrite (upload_loop_app svc pre (part :: post) [] keys s s1 code msg Hpre).
  pose proof (upload_loop_cons svc part post keys s1) as Hcons.
  rewrite Hpart in Hcons.
  destruct r; try done. by destruct (Hr code0 message uploaded_files).
Qed.

Lemma first_failure_ends_request_witness :
  uploadFilesHandler services
    (inl [sample_part; unopenable_part; sample_part]) sample_world
  = uploadFilesHandler services (inl [sample_part; unopenable_part]) sample_world
  /\ status (uploadFilesHandler services
               (inl [sample_part; unopenable_part; sample_part]) sample_world).1
     = StatusInternalServerError.
Proof.
  pose (w1 := stored "10325476-98ba-4cfe-8123-456789abcdef_a.txt"
                sample_content (after_call (after_draw sample_world))).
  assert (forall post,
            uploadFilesHandler services
              (inl ([sample_part] ++ unopenable_part :: post)) sample_world
            = ((upload_loop services [unopenable_part]
                  ["10325476-98ba-4cfe-8123-456789abcdef_a.txt"] w1).1,
               (upload_loop services [unopenable_part]
                  ["10325476-98ba-4cfe-8123-456789abcdef_a.txt"] w1).2))
    as H.
  { intros post.
    apply (first_failure_ends_request services [sample_part] post unopenable_part
             ["10325476-98ba-4cfe-8123-456789abcdef_a.txt"]
             StatusCreated "Files uploaded successfully"
             sample_world w1);
      [reflexivity | reflexivity | vm_compute; discriminate]. }
  split.
  - exact (eq_trans (H [sample_part]) (eq_sym (H []))).
  - pose proof (H [sample_part]) as H1. cbn [app] in H1. rewrite H1.
    reflexivity.
Defined.

(** ** What a 201 reports *)

Lemma key_name_uniqueFilename (u : uuid.UUID) (name : string) :
  length u = 16%nat -> key_name (uniqueFilename u name) = filepath.Base name.
Proof.
  intros Hu. unfold key_name, uniqueFilename. apply chars_inj.
  rewrite chars_substring, !len_app, !chars_app, String_len by done.
  assert (length (chars (uuid.String_ u)) = 36%nat) as H36
    by (by rewrite <- len_chars, String_len).
  rewrite drop_app_ge by lia. rewrite H36.
  change (drop (37 - 36) (chars "_" ++ chars (filepath.Base name)))
    with (chars (filepath.Base name)).
  rewrite take_ge; [done |]. rewrite <- len_chars.
  change (len "_") with 1%nat. lia.
Qed.

Lemma uuid_New_sixteen {St : Type} (svc : Collaborators St) (s s1 : St)
    (u : uuid.UUID) :
  uuid_New svc s = (Some u, s1) -> length u = 16%nat.
Proof.
  unfold uuid_New, mbind, M_bind.
  destruct (rand_ReadFull svc s) as [[bs [e|]] s0]; simpl; [done |].
  intros [= <- _]. apply version4_length.
Qed.

Lemma named_parts_cons (part : multipart.FileHeader)
    (files : list multipart.FileHeader) :
  named_parts (part :: files)
  = if bool_decide (multipart.Filename part = "") then named_parts files
    else multipart.Filename part :: named_parts files.
Proof.
  unfold named_parts. rewrite fmap_cons. case_bool_decide.
  - by rewrite filter_cons_False by (intros H'; by apply H').
  - by rewrite filter_cons_True.
Qed.

Lemma upload_loop_reported {St : Type} (svc : Collaborators St)
    (files : list multipart.FileHeader) :
  forall (acc keys : list string) (s s' : St) (code : Z) (msg : string),
  upload_loop svc files acc s = (JSON_uploaded code msg keys, s') ->
  code = StatusCreated
  /\ exists ids,
       Forall (λ u : uuid.UUID, length u = 16%nat) ids
       /\ length ids = length (named_parts files)
       /\ keys = acc ++ zip_with uniqueFilename ids (named_parts files).
Proof.
  induction files as [|part files IH]; intros acc keys s s' code msg H.
  - simpl in H. unfold mret, M_ret in H. simplify_eq.
    split; [done |]. exists []. by rewrite app_nil_r.
  - rewrite named_parts_cons. simpl in H. case_bool_decide; [by eapply IH |].
    destruct (multipart.Open part) as [file | e]; [| by inversion H].
    unfold mbind, M_bind in H.
    destruct (uuid_New svc s) as [[u|] s1] eqn:Hu; [| by inversion H].
    apply uuid_New_sixteen in Hu.
    destruct (producer _ file io_Pipe) as [pr rd].
    destruct (Upload svc _ pr s1) as [[err|] s2].
    { by destruct (Contains (Error err) size_exceeded_suffix); inversion H. }
    apply IH in H as (Hcode & ids & Hids & Hlen & ->).
    split; [done |]. exists (u :: ids).
    split; [by apply Forall_cons |]. split; [simpl; by rewrite Hlen |].
    simpl. by rewrite <- app_assoc.
Qed.

(** X7.  A request answered with a list of uploaded keys is answered 201,
    and the list has one key for each part that has a name, in the order
    the parts were submitted; each key is a 36-character identifier, an
    underscore at position 36, and then the base of that part's name, so
    the names can be read back from the keys. *)
Theorem created_reports_named_parts {St : Type} (svc : Collaborators St)
    (files : list multipart.FileHeader) (s s' : St) (code : Z) (msg : string)
    (keys : list string) :
  uploadFilesHandler svc (inl files) s = (JSON_uploaded code msg keys, s') ->
  code = StatusCreated
  /\ length keys = length (named_parts files)
  /\ key_name <$> keys = filepath.Base <$> named_parts files
  /\ Forall (λ key, exists id name,
               key = id +:+ "_" +:+ name /\ len id = 36%nat /\ name <> "")
       keys.
Proof.
  unfold uploadFilesHandler. case_bool_decide; [by inversion 1 |].
  intros (Hcode & ids & Hids & Hlen & ->)%upload_loop_reported.
  split; [done |]. rewrite app_nil_l.
  revert ids Hids Hlen.
  induction (named_parts files) as [|name names IH]; intros ids Hids Hlen.
  { destruct ids; [| done]. repeat split; done. }
  destruct ids as [|u ids]; [done |].
  apply Forall_cons in Hids as [Hu Hids]. injection Hlen as Hlen.
  destruct (IH ids Hids Hlen) as (Hl & Hn & Hk).
  cbn [zip_with]. rewrite !fmap_cons, !length_cons.
  split; [by rewrite Hl |]. split.
  - by rewrite key_name_uniqueFilename, Hn.
  - apply Forall_cons. split; [| done].
    exists (uuid.String_ u), (filepath.Base name).
    split; [done |]. split; [by apply String_len | apply Base_nonempty].
Qed.

Lemma created_reports_named_parts_witness :
  key_name
    <$> ["10325476-98ba-4cfe-8123-456789abcdef_a.txt";
         "00112233-4455-4677-8899-aabbccddeeff_b.txt"]
  = filepath.Base <$> named_parts [sample_part; nested_part].
Proof.
  refine (proj1 (proj2 (proj2
            (created_reports_named_parts services
               [sample_part; nested_part] sample_world
               (uploadFilesHandler services
                  (inl [sample_part; nested_part])
                  sample_world).2
               StatusCreated "Files uploaded successfully" _ _)))).
  vm_compute. reflexivity.
Defined.

(** ** Names that are already a base *)

(** X8.  [filepath.Base] is idempotent, and its result is never empty: a
    file name that has been reduced to its base once (as the multipart
    layer does before the handler sees it) is put into the key as it is. *)
Theorem base_name_kept_in_key (u : uuid.UUID) (raw : string) :
  filepath.Base (filepath.Base raw) = filepath.Base raw
  /\ filepath.Base raw <> ""
  /\ uniqueFilename u (filepath.Base raw)
     = uuid.String_ u +:+ "_" +:+ filepath.Base raw.
Proof.
  assert (filepath.Base (filepath.Base raw) = filepath.Base raw) as Hidem.
  { destruct (Base_cases raw) as [-> | Hno]; [done |].
    apply Base_plain_name; [apply Base_nonempty | done]. }
  split; [done |]. split; [apply Base_nonempty |].
  unfold uniqueFilename. by rewrite Hidem.
Qed.

(** ** What an upload leaves in the store *)

Lemma uuid_New_some (w w1 : World) (u : uuid.UUID) :
  uuid_New services w = (Some u, w1) -> u = next_uuid w /\ w1 = after_draw w.
Proof.
  unfold uuid_New, services, readRandom. run.
  case_bool_decide; simpl; [| done]. by intros [= <- <-].
Qed.

(** X9.  On the store, a pass of the upload loop that reports a new key
    has stored under that key the whole content of the part's file, read
    to its end without error and within the ceiling: no partial or
    oversized file is ever reported as uploaded.  The reads are taken to
    respect the 32 KiB buffer. *)
Theorem reported_key_holds_whole_file (w w' : World) (name : string)
    (file : Reader) (acc keys : list string) (code : Z) (msg : string) :
  name <> "" -> fits_buffer file ->
  upload_loop services [multipart.mkFileHeader name (inl file)] acc w
  = (JSON_uploaded code msg keys, w') ->
  exists data,
    file_content file = Some data
    /\ Z.of_nat (length data) <= maxFileSizeByte
    /\ keys = acc ++ [uniqueFilename (next_uuid w) name]
    /\ (Store.content <$> bucket w' !! uniqueFilename (next_uuid w) name)
       = Some data.
Proof.
  intros Hn Hfit H. simpl in H. rewrite bool_decide_eq_false_2 in H by done.
  unfold mbind, M_bind in H.
  destruct (uuid_New services w) as [[u|] w1] eqn:Hu; [| by inversion H].
  apply uuid_New_some in Hu as [-> ->].
  pose proof (producer_normal_end name file Hfit) as Hend.
  destruct (producer name file io_Pipe) as [pr rd]. simpl in Hend.
  change (Upload services) with putObject in H.
  destruct (putObject _ pr (after_draw w)) as [[err|] w2] eqn:Hput.
  { by destruct (Contains (Error err) size_exceeded_suffix); inversion H. }
  apply putObject_success in Hput as [Hw ->].
  destruct (Hend Hw) as (data & Hc & Hd & Hle).
  unfold mret, M_ret in H. simplify_eq.
  exists (p_data pr). split; [done |]. split; [done |]. split; [done |].
  unfold stored. simpl. by rewrite lookup_insert_eq.
Qed.

Lemma reported_key_holds_whole_file_witness :
  exists data,
    file_content sample_file = Some data
    /\ Z.of_nat (length data) <= maxFileSizeByte
    /\ (Store.content
          <$> bucket (upload_loop services [sample_part] [] sample_world).2
              !! "10325476-98ba-4cfe-8123-456789abcdef_a.txt")
       = Some data.
Proof.
  destruct (reported_key_holds_whole_file sample_world
              (upload_loop services [sample_part] [] sample_world).2
              "a.txt" sample_file []
              ["10325476-98ba-4cfe-8123-456789abcdef_a.txt"]
              StatusCreated "Files uploaded successfully")
    as (data & Hc & Hle & _ & Hk);
    [discriminate | repeat constructor; vm_compute; discriminate
    | reflexivity |].
  exists data. split; [exact Hc |]. split; [exact Hle | exact Hk].
Defined.

Lemma putObject_failure (key : string) (body : Pipe) (w w' : World)
    (e : error) :
  putObject key body w = (Some e, w') -> w' = after_call w.
Proof.
  unfold putObject, mbind at 1, M_bind at 1. rewrite next_outage_eq.
  destruct (next_outage w).1 as [e0|]; [by inversion 1 |].
  destruct (p_werr body) as [e0|]; [| by inversion 1].
  destruct e0; by inversion 1.
Qed.

Lemma putObject_bucket (key : string) (body : Pipe) (w : World) :
  bucket (putObject key body w).2 = bucket w
  \/ exists obj, bucket (putObject key body w).2 = <[key := obj]> (bucket w).
Proof.
  destruct (putObject key body w) as [[e|] w'] eqn:H; simpl.
  - left. apply putObject_failure in H as ->. apply bucket_after_call.
  - right. apply putObject_success in H as [_ ->]. eexists.
    unfold stored. simpl. by rewrite bucket_after_call.
Qed.

Lemma upload_loop_keeps (files : list multipart.FileHeader) :
  forall (acc : list string) (w : World),
  dom (bucket w) ⊆ dom (bucket (upload_loop services files acc w).2).
Proof.
  induction files as [|part files IH]; intros acc w; simpl; [done |].
  case_bool_decide; [apply IH |].
  destruct (multipart.Open part) as [file | e]; [| done].
  unfold mbind, M_bind.
  destruct (uuid_New services w) as [[u|] w1] eqn:Hu;
    apply uuid_New_bucket in Hu; [| simpl; by rewrite Hu].
  destruct (producer _ file io_Pipe) as [pr rd].
  change (Upload services) with putObject.
  pose proof (putObject_bucket (uniqueFilename u (multipart.Filename part))
                pr w1) as Hput.
  destruct (putObject _ pr w1) as [r w2]. simpl in Hput.
  assert (dom (bucket w) ⊆ dom (bucket w2)) as Hsub.
  { destruct Hput as [-> | [obj ->]]; rewrite ?dom_insert, Hu;
      [done | apply union_subseteq_r]. }
  destruct r as [err|]; [| by etrans; [| apply IH]].
  by destruct (Contains (Error err) size_exceeded_suffix).
Qed.

(** X10.  On the store, only a delete request removes anything: an upload
    request, whatever its parts and however it ends, leaves every key of
    the bucket in place; listing and download leave the bucket as it is;
    and a delete request leaves every key other than its own untouched. *)
Theorem only_delete_removes :
  (forall form w,
     dom (bucket w) ⊆ dom (bucket (uploadFilesHandler services form w).2))
  /\ (forall w, bucket (listFilesHandler services w).2 = bucket w)
  /\ (forall key w, bucket (getFileHandler services key w).2 = bucket w)
  /\ (forall key other w,
        other <> key ->
        bucket (deleteFileHandler services key w).2 !! other
        = bucket w !! other).
Proof.
  split; [| split; [| split]].
  - intros [files | e] w; simpl; [| done].
    case_bool_decide; [done | apply upload_loop_keeps].
  - intros w. unfold listFilesHandler, mbind at 1, M_bind at 1. simpl.
    unfold listObjects, mbind at 1, M_bind at 1. rewrite next_outage_eq.
    destruct (next_outage w).1 as [e|]; run; [apply bucket_after_call |].
    destruct (collect_files _ []); apply bucket_after_call.
  - intros key w. unfold getFileHandler, mbind at 1, M_bind at 1. simpl.
    unfold getObject, mbind at 1, M_bind at 1. rewrite next_outage_eq.
    destruct (next_outage w).1 as [e|]; run.
    + destruct e; try apply bucket_after_call.
      case_bool_decide; apply bucket_after_call.
    + destruct (bucket (after_call w) !! key); simpl;
        rewrite ?bool_decide_eq_true_2 by done; apply bucket_after_call.
  - intros key other w Hne.
    unfold deleteFileHandler, mbind at 1, M_bind at 1. simpl.
    unfold deleteObject, mbind at 1, M_bind at 1. rewrite next_outage_eq.
    destruct (next_outage w).1 as [e|]; run;
      [by rewrite bucket_after_call |].
    by rewrite lookup_delete_ne, bucket_after_call.
Qed.

Lemma only_delete_removes_witness :
  bucket (deleteFileHandler services "a.txt" listing_world).2 !! "b.txt"
  = bucket listing_world !! "b.txt".
Proof.
  apply (proj2 (proj2 (proj2 only_delete_removes))). discriminate.
Defined.

(** ** Start-up *)

Lemma lower_byte_t (c : ascii) :
  lower_byte c = "t"%char -> (c = "t" \/ c = "T")%char.
Proof.
  destruct c as [[] [] [] [] [] [] [] []]; vm_compute;
    (discriminate || auto).
Qed.

Lemma lower_byte_r (c : ascii) :
  lower_byte c = "r"%char -> (c = "r" \/ c = "R")%char.
Proof.
  destruct c as [[] [] [] [] [] [] [] []]; vm_compute;
    (discriminate || auto).
Qed.

Lemma lower_byte_u (c : ascii) :
  lower_byte c = "u"%char -> (c = "u" \/ c = "U")%char.
Proof.
  destruct c as [[] [] [] [] [] [] [] []]; vm_compute;
    (discriminate || auto).
Qed.

Lemma lower_byte_e (c : ascii) :
  lower_byte c = "e"%char -> (c = "e" \/ c = "E")%char.
Proof.
  destruct c as [[] [] [] [] [] [] [] []]; vm_compute;
    (discriminate || auto).
Qed.

Lemma ToLower_true (unicode_lower : string -> string) (s : string) :
  isASCII s = true ->
  ToLower unicode_lower s = "true" <-> spells_true s.
Proof.
  intros Hascii. unfold ToLower. rewrite Hascii. split.
  - destruct (hasUpper s); simpl.
    + intros H. apply (f_equal chars) in H. rewrite chars_of_chars in H.
      destruct s as [|c1 [|c2 [|c3 [|c4 [|c5 s]]]]]; try done.
      simpl in H. injection H as H1 H2 H3 H4.
      exists c1, c2, c3, c4. split; [done |].
      split; [by apply lower_byte_t |]. split; [by apply lower_byte_r |].
      split; [by apply lower_byte_u | by apply lower_byte_e].
    + intros ->. exists "t"%char, "r"%char, "u"%char, "e"%char. auto 10.
  - intros (c1 & c2 & c3 & c4 & -> & [-> | ->] & [-> | ->] & [-> | ->]
            & [-> | ->]); reflexivity.
Qed.

(** X11.  Start-up: [initS3Client] reaches a session exactly when region
    and bucket are both set and the session can be opened; the session is
    opened with a configuration that carries the region, the custom
    endpoint only when one is set, and path-style addressing, for a value
    written in ASCII, exactly when the value spells "true" in some mix of
    upper and lower case (sixteen spellings; "1", "yes" or "true " do not
    count); path-style addressing is never switched off explicitly. *)
Theorem startup_configuration (unicode_lower : string -> string)
    {Session : Type} (NewSession : Config -> Session + error) (env : Env) :
  let cfg := session_config unicode_lower env in
  ((exists sess, initS3Client unicode_lower NewSession env = Ready sess)
   <-> S3_REGION env <> "" /\ S3_BUCKET env <> ""
       /\ exists sess, NewSession cfg = inl sess)
  /\ Region cfg = Some (S3_REGION env)
  /\ Endpoint cfg
     = (if bool_decide (AWS_ENDPOINT env = "") then None
        else Some (AWS_ENDPOINT env))
  /\ S3ForcePathStyle cfg <> Some false
  /\ (isASCII (AWS_S3_FORCE_PATH_STYLE env) = true ->
      (S3ForcePathStyle cfg = Some true
       <-> spells_true (AWS_S3_FORCE_PATH_STYLE env))).
Proof.
  intros cfg. split; [| split; [| split; [| split]]].
  - unfold initS3Client. fold cfg.
    destruct (decide (S3_REGION env = "")) as [Hr | Hr].
    { rewrite bool_decide_eq_true_2 by done. simpl.
      split; [by intros [? ?] | by intros [? _]]. }
    destruct (decide (S3_BUCKET env = "")) as [Hb | Hb].
    { rewrite (bool_decide_eq_true_2 (S3_BUCKET env = "")) by done.
      rewrite orb_true_r.
      split; [by intros [? ?] | by intros (_ & ? & _)]. }
    rewrite !bool_decide_eq_false_2 by done. simpl.
    destruct (NewSession cfg) as [sess | err].
    + split; [intros _; eauto | intros _; eauto].
    + split; [by intros [? ?] | by intros (_ & _ & ? & ?)].
  - unfold cfg, session_config. by repeat case_bool_decide.
  - unfold cfg, session_config. repeat case_bool_decide; simpl; done.
  - unfold cfg, session_config. by repeat case_bool_decide.
  - intros Hascii. rewrite <- (ToLower_true unicode_lower) by done.
    unfold cfg, session_config. repeat case_bool_decide; simpl; done.
Qed.

Lemma startup_configuration_witness :
  S3ForcePathStyle (session_config (λ s, s) local_env) = Some true
  /\ Endpoint (session_config (λ s, s) local_env) = Some "http://minio:9000".
Proof.
  destruct (startup_configuration (λ s, s) (λ _ : Config, inl tt) local_env)
    as (_ & _ & He & _ & Hs).
  split.
  - apply Hs; [reflexivity |].
    exists "T"%char, "r"%char, "u"%char, "e"%char. auto 10.
  - exact He.
Defined.

(** ** Errors inside errors *)

(** X12.  The text of an [awserr.Error] contains the text of its cause, at
    any depth; so the upload handler answers 413, echoing the whole text,
    for a put error that carries the producer's size error under any
    number of wrappers, as the SDK returns it for single and for multipart
    uploads. *)
Theorem size_error_seen_through_wrappers {St : Type} (svc : Collaborators St)
    (name : string) (file : Reader) (files : list multipart.FileHeader)
    (acc : list string) (s s1 s2 : St) (u : uuid.UUID)
    (layers : list (string * string)) :
  name <> "" ->
  uuid_New svc s = (Some u, s1) ->
  Upload svc (uniqueFilename u name) (producer name file io_Pipe).1 s1
  = (Some (wrapped layers (size_exceeded_error name)), s2) ->
  upload_loop svc (multipart.mkFileHeader name (inl file) :: files) acc s
  = (HTTPError StatusRequestEntityTooLarge
       (Error (wrapped layers (size_exceeded_error name))), s2)
  /\ exists a b,
       Error (wrapped layers (size_exceeded_error name))
       = a +:+ Error (size_exceeded_error name) +:+ b.
Proof.
  intros Hn Hu Hp. split.
  - rewrite (upload_loop_put svc name file files acc s s1 s2 u _ Hn Hu Hp).
    rewrite Contains_wrapped; [done |].
    apply Contains_spec. exists ("file '" +:+ name +:+ "' "), "".
    rewrite app_empty_r. simpl. by rewrite !app_assoc_s.
  - apply Contains_spec, Contains_wrapped, Contains_spec.
    exists "", "". by rewrite app_empty_r.
Qed.

Lemma size_error_seen_through_wrappers_witness :
  status
    (upload_loop services
       [multipart.mkFileHeader "big.bin" (inl sample_file)] []
       (mkWorld ∅ [Some multipart_abort] sample_entropy 0)).1
  = StatusRequestEntityTooLarge.
Proof.
  destruct (size_error_seen_through_wrappers services "big.bin"
              sample_file [] []
              (mkWorld ∅ [Some multipart_abort] sample_entropy 0)
              (after_draw (mkWorld ∅ [Some multipart_abort] sample_entropy 0))
              (after_call
                 (after_draw
                    (mkWorld ∅ [Some multipart_abort] sample_entropy 0)))
              (next_uuid sample_world) multipart_layers)
    as [Hr _]; [discriminate | reflexivity | reflexivity |].
  rewrite Hr. reflexivity.
Defined.

(** ** The shape of an identifier *)

Lemma fill_sixteen (bs : list byte) :
  exists b0 b1 b2 b3 b4 b5 b6 b7 b8 b9 b10 b11 b12 b13 b14 b15,
    uuid.fill bs
    = [b0; b1; b2; b3; b4; b5; b6; b7; b8; b9; b10; b11; b12; b13; b14; b15].
Proof.
  pose proof (fill_length bs) as H.
  destruct (uuid.fill bs) as [|b0 l]; [done |].
  do 15 (destruct l as [|? l]; [done |]).
  destruct l; [| done]. by repeat eexists.
Qed.

Lemma version_digit (b : byte) :
  uuid.hexdigit (Byte.to_N (uuid.and_or 15 64 b) / 16) = "4"%char.
Proof. destruct b; reflexivity. Qed.

Lemma variant_digit (b : byte) :
  uuid.hexdigit (Byte.to_N (uuid.and_or 63 128 b) / 16)
  ∈ ["8"; "9"; "a"; "b"]%char.
Proof.
  destruct b; vm_compute;
    repeat first [apply list_elem_of_here | apply list_elem_of_further].
Qed.

(** X13.  Whatever the random source delivers, a key begins with the text
    of a version-4 identifier: hyphens at positions 8, 13, 18 and 23, the
    digit 4 at position 14, one of 8, 9, a, b at position 19, then the
    underscore at position 36; the first 37 characters hold no path
    separator. *)
Theorem key_identifier_shape (bs : list byte) (name : string) :
  let key := uniqueFilename (uuid.version4 bs) name in
  String.get 8 key = Some "-"%char /\ String.get 13 key = Some "-"%char
  /\ String.get 18 key = Some "-"%char /\ String.get 23 key = Some "-"%char
  /\ String.get 14 key = Some "4"%char
  /\ (exists c, String.get 19 key = Some c /\ c ∈ ["8"; "9"; "a"; "b"]%char)
  /\ String.get 36 key = Some "_"%char
  /\ filepath.Separator ∉ take 37 (chars key).
Proof.
  intros key. subst key. unfold uniqueFilename, uuid.version4.
  destruct (fill_sixteen bs)
    as (b0 & b1 & b2 & b3 & b4 & b5 & b6 & b7 & b8 & b9 & b10 & b11 & b12
        & b13 & b14 & b15 & Hfill).
  assert (take 37 (chars (uuid.String_
                            (alter (uuid.and_or 63 128) 8%nat
                               (alter (uuid.and_or 15 64) 6%nat
                                  (uuid.fill bs)))
                          +:+ "_" +:+ filepath.Base name))
          = chars (uuid.String_
                     (alter (uuid.and_or 63 128) 8%nat
                        (alter (uuid.and_or 15 64) 6%nat (uuid.fill bs))))
            ++ ["_"%char]) as Htake.
  { rewrite !chars_app.
    assert (length (chars (uuid.String_
                             (alter (uuid.and_or 63 128) 8%nat
                                (alter (uuid.and_or 15 64) 6%nat
                                   (uuid.fill bs))))) = 36%nat) as H36.
    { rewrite <- len_chars. apply String_len.
      by rewrite !length_alter, fill_length. }
    rewrite take_app_ge by lia. rewrite H36. done. }
  assert (filepath.Separator
          ∉ take 37 (chars (uuid.String_
                              (alter (uuid.and_or 63 128) 8%nat
                                 (alter (uuid.and_or 15 64) 6%nat
                                    (uuid.fill bs)))
                            +:+ "_" +:+ filepath.Base name))) as Hsep.
  { rewrite Htake, not_elem_of_app. split; [apply String_no_separator |].
    by rewrite list_elem_of_singleton. }
  clear Htake. revert Hsep. rewrite Hfill. intros Hsep.
  cbn [alter list_alter]. unfold uuid.String_.
  cbn [take drop firstn skipn uuid.hex_Encode].
  cbv beta iota zeta delta [String.append String.get].
  repeat split; try reflexivity.
  - f_equal. apply version_digit.
  - eexists. split; [reflexivity | apply variant_digit].
  - exact Hsep.
Qed.
